(** * Message routes of the agent wallboard backend

    A shallow embedding of [backend-server/routes/messages.js]: the three
    Express handlers [POST /send], [GET /agent/:agentCode] and
    [PUT /:messageId/read], run against an explicit world made of the
    message collection, the ObjectId supply and the socket.io server that
    [server.js] registers under the key ['io'].

    Each handler is a total function from the world, the environment's
    answers for this call (the clock read by [new Date()], and whether the
    database call completes) and the request, to the new world, the HTTP
    response and the socket.io deliveries it caused.  A handler is run as
    one step: the socket table it sees is the one at the moment of the
    emit. *)

From Stdlib Require Import Ascii.
From stdpp Require Import gmap strings list sorting pretty.

Open Scope Z_scope.

(** ** JavaScript values of a parsed JSON body *)

Module JS.

(** A field of [req.body].  [JUndefined] is an absent field, [JArr] an
    array with its items, and [JObject] stands for any other object, of
    which the handlers only use the truthiness.  Numbers matter only
    through being zero or not.  Strings are kept as their UTF-8 bytes. *)
#[local] Set Warnings "-register-all".
Inductive jsval : Type :=
  | JUndefined
  | JNull
  | JBool (b : bool)
  | JNum (n : Z)
  | JStr (s : string)
  | JArr (items : list jsval)
  | JObject.

Fixpoint jsval_eq (a b : jsval) {struct a} : {a = b} + {a ≠ b}.
Proof.
  decide equality;
    [apply bool_eq_dec | apply Z.eq_dec | apply String.string_dec
    | apply (List.list_eq_dec jsval_eq)].
Defined.

#[global] Instance jsval_eq_dec : EqDecision jsval := jsval_eq.

(** ToBoolean *)
Definition truthy (v : jsval) : bool :=
  match v with
  | JUndefined | JNull => false
  | JBool b => b
  | JNum n => negb (n =? 0)
  | JStr s => negb (String.eqb s "")
  | JArr _ | JObject => true
  end.

(** [a || b] *)
Definition or (a b : jsval) : jsval := if truthy a then a else b.

(** A destructuring default, [{ x = d }]: it replaces [undefined] only. *)
Definition default_to (v d : jsval) : jsval :=
  match v with JUndefined => d | _ => v end.

(** [a === b] against a string literal *)
Definition is_str (v : jsval) (lit : string) : bool :=
  match v with JStr s => String.eqb s lit | _ => false end.

End JS.
Import JS.

(** ** The message collection *)

(** A document of the [Message] model.  The schema of [models/Message.js]
    is not among the sources: fields are kept as the handler passes them,
    and the verdict of [save()] (validation and the database round trip)
    is an answer of the environment.  [_id] is the ObjectId given by
    [new Message(...)], [timestamp] and [readAt] are clock readings. *)
Record Message : Type := {
  _id : nat;
  fromCode : jsval;
  toCode : jsval;
  content : jsval;
  type : jsval;
  priority : jsval;
  timestamp : Z;
  isRead : bool;
  readAt : option Z
}.

#[global] Instance Message_eq_dec : EqDecision Message.
Proof. solve_decision. Defined.

(** ** The socket.io server *)

(** Modelled from the spec: the role a connection is registered with
    ([agent] | [supervisor]); the socket handler that assigns it
    ([socket/socketHandler.js]) is not among the sources. *)
Inductive Role : Type := agent | supervisor.

#[global] Instance Role_eq_dec : EqDecision Role.
Proof. solve_decision. Defined.

(** A connected socket: its id, its role and the rooms it is in. *)
Record Socket : Type := {
  sid : nat;
  role : Role;
  rooms : list string
}.

(** One event put on the wire to one socket. *)
Record Delivery : Type := {
  target : nat;
  event : string;
  payload : Message
}.

Module Io.

(** [io.emit(ev, m)]: to every connected socket. *)
Definition emit (socks : list Socket) (ev : string) (m : Message)
  : list Delivery :=
  (λ s, {| target := sid s; event := ev; payload := m |}) <$> socks.

(** Whether socket [s] is in the room named by key [k].  Rooms are joined
    under strings, so a key that is no string names no joined room. *)
Definition in_room (k : jsval) (s : Socket) : bool :=
  match k with
  | JStr r => bool_decide (r ∈ rooms s)
  | _ => false
  end.

(** The rooms [io.to(k)] adds to the target: the items of [k] when it is
    an array, [k] itself otherwise. *)
Definition room_keys (k : jsval) : list jsval :=
  match k with
  | JArr items => items
  | _ => [k]
  end.

(** Whether [io.to(k).emit] reaches socket [s]: it is in one of the
    target rooms; and with no target room at all (an empty array) the
    emit goes to every socket, as [io.emit] does. *)
Definition targeted (k : jsval) (s : Socket) : bool :=
  match room_keys k with
  | [] => true
  | keys => existsb (λ r, in_room r s) keys
  end.

(** [io.to(k).emit(ev, m)]: once to each targeted socket. *)
Definition to_emit (socks : list Socket) (k : jsval) (ev : string)
    (m : Message) : list Delivery :=
  emit (filter (λ s, targeted k s = true) socks) ev m.

End Io.

(** ** World, environment and responses *)

Record World : Type := {
  store : gmap nat Message;      (* the messages collection, by _id *)
  next_id : nat;                 (* supply of ObjectIds *)
  io : option (list Socket);     (* req.app.get('io') and its sockets *)
  next_sid : nat                 (* supply of socket ids *)
}.

Record Env : Type := {
  now : Z;                       (* what new Date() reads *)
  db_ok : bool                   (* whether the awaited database call resolves *)
}.

Inductive Body : Type :=
| BError (error : string)
| BSent (messageId : nat)              (* { success: true, messageId } *)
| BMessages (messages : list Message)  (* { messages } *)
| BSuccess.                            (* { success: true } *)

Record Response : Type := { status : nat; body : Body }.

Record Result : Type := {
  world : World;
  response : option Response;
  pushes : list Delivery
}.

Definition set_store (w : World) (st : gmap nat Message) : World :=
  {| store := st; next_id := next_id w; io := io w; next_sid := next_sid w |}.

Definition take_id (w : World) : World :=
  {| store := store w; next_id := S (next_id w); io := io w;
     next_sid := next_sid w |}.

Definition json (code : nat) (b : Body) : option Response :=
  Some {| status := code; body := b |}.

(** ** POST /send *)

(** The six fields the handler destructures from [req.body], the object
    the JSON body parser leaves there (an empty object when the request
    carries none). *)
Record SendBody : Type := {
  b_fromCode : jsval;
  b_toCode : jsval;
  b_message : jsval;
  b_content : jsval;
  b_type : jsval;
  b_priority : jsval
}.

Module Send.

(** [type = 'direct'], [priority = 'normal'] and [message || content] *)
Definition type_of (b : SendBody) : jsval :=
  JS.default_to (b_type b) (JStr "direct").
Definition priority_of (b : SendBody) : jsval :=
  JS.default_to (b_priority b) (JStr "normal").
Definition text (b : SendBody) : jsval := JS.or (b_message b) (b_content b).

(** the guard [!fromCode || !text], negated *)
Definition accepted (b : SendBody) : bool :=
  truthy (b_fromCode b) && truthy (text b).

(** [new Message({ ... })], under the next ObjectId *)
Definition newMessage (w : World) (e : Env) (b : SendBody) : Message :=
  {| _id := next_id w;
     fromCode := b_fromCode b;
     toCode := if is_str (type_of b) "broadcast" then JNull else b_toCode b;
     content := text b;
     type := type_of b;
     priority := priority_of b;
     timestamp := now e;
     isRead := false;
     readAt := None |}.

(** the block guarded by [if (io)] *)
Definition route (w : World) (b : SendBody) (m : Message) : list Delivery :=
  match io w with
  | Some socks =>
      if is_str (type_of b) "broadcast"
      then Io.emit socks "new_broadcast_message" m
      else Io.to_emit socks (b_toCode b) "new_direct_message" m
  | None => []
  end.

End Send.

(** The handler: the 400 guard, then [new Message], then the awaited
    [save()], whose rejection is caught and answered with 500, then the
    emit and the 200 answer. *)
Definition post_send (w : World) (e : Env) (b : SendBody) : Result :=
  if negb (Send.accepted b) then
    {| world := w;
       response := json 400 (BError "From code and message are required");
       pushes := [] |}
  else
    let m := Send.newMessage w e b in
    let w1 := take_id w in
    if db_ok e then
      {| world := set_store w1 (<[_id m := m]> (store w1));
         response := json 200 (BSent (_id m));
         pushes := Send.route w b m |}
    else
      {| world := w1;
         response := json 500 (BError "Failed to send message");
         pushes := [] |}.

(** ** GET /agent/:agentCode *)

Module Num.

(** White space as [parseInt] and [trim] see it (WhiteSpace and
    LineTerminator of the language), on the UTF-8 bytes of a string:
    U+0009 to U+000D and U+0020 in one byte, U+00A0 in two, and U+1680,
    U+2000 to U+200A, U+2028, U+2029, U+202F, U+205F, U+3000 and U+FEFF
    in three. *)
Definition code (c : ascii) : Z := Z.of_N (N_of_ascii c).

Definition is_ws (c : ascii) : bool :=
  (code c =? 32) || ((9 <=? code c) && (code c <=? 13)).

Definition is_ws2 (c1 c2 : ascii) : bool :=
  (code c1 =? 194) && (code c2 =? 160).

Definition is_ws3 (c1 c2 c3 : ascii) : bool :=
  ((code c1 =? 225) && (code c2 =? 154) && (code c3 =? 128))
  || ((code c1 =? 226) && (code c2 =? 128)
      && (((128 <=? code c3) && (code c3 <=? 138))
          || (code c3 =? 168) || (code c3 =? 169) || (code c3 =? 175)))
  || ((code c1 =? 226) && (code c2 =? 129) && (code c3 =? 159))
  || ((code c1 =? 227) && (code c2 =? 128) && (code c3 =? 128))
  || ((code c1 =? 239) && (code c2 =? 187) && (code c3 =? 191)).

(** One white space character off the front, if there is one. *)
Definition strip_ws (s : string) : option string :=
  match s with
  | String c1 r1 =>
      if is_ws c1 then Some r1
      else match r1 with
           | String c2 r2 =>
               if is_ws2 c1 c2 then Some r2
               else match r2 with
                    | String c3 r3 => if is_ws3 c1 c2 c3 then Some r3 else None
                    | EmptyString => None
                    end
           | EmptyString => None
           end
  | EmptyString => None
  end.

(** All leading white space off. *)
Fixpoint skip_ws (s : string) : string :=
  match s with
  | String c1 r1 =>
      if is_ws c1 then skip_ws r1
      else match r1 with
           | String c2 r2 =>
               if is_ws2 c1 c2 then skip_ws r2
               else match r2 with
                    | String c3 r3 =>
                        if is_ws3 c1 c2 c3 then skip_ws r3 else s
                    | EmptyString => s
                    end
           | EmptyString => s
           end
  | EmptyString => s
  end.

(** [parseInt(s)] with no radix: leading white space, an optional sign,
    an optional [0x] prefix, then the longest run of digits.  [None] is
    NaN.  The value is the integer the digits denote; [parseInt] returns
    it as a double, exact up to 2^53 and rounded to the nearest double
    beyond, a difference that no limit on a collection shows. *)
Definition digit_val (radix : Z) (c : ascii) : option Z :=
  let n := Z.of_N (N_of_ascii c) in
  let d :=
    if (48 <=? n) && (n <=? 57) then Some (n - 48)
    else if (97 <=? n) && (n <=? 122) then Some (n - 87)
    else if (65 <=? n) && (n <=? 90) then Some (n - 55)
    else None in
  match d with
  | Some v => if v <? radix then Some v else None
  | None => None
  end.

Fixpoint digits (radix : Z) (acc : option Z) (s : string) : option Z :=
  match s with
  | String c r =>
      match digit_val radix c with
      | Some d => digits radix (Some (radix * default 0 acc + d)) r
      | None => acc
      end
  | EmptyString => acc
  end.

Definition parseInt (s : string) : option Z :=
  let s := skip_ws s in
  let '(neg, s) :=
    match s with
    | String "-" r => (true, r)
    | String "+" r => (false, r)
    | _ => (false, s)
    end in
  let '(radix, s) :=
    match s with
    | String "0" (String "x" r) | String "0" (String "X" r) => (16, r)
    | _ => (10, s)
    end in
  match digits radix None s with
  | Some v => Some (if neg then - v else v)
  | None => None
  end.

(** [parseInt(q)] on a query parameter: an absent one is [undefined],
    whose string form holds no digit. *)
Definition parseInt_query (q : option string) : option Z :=
  parseInt (default "undefined"%string q).

(** [n || d] on a number: NaN and zero are falsy. *)
Definition or_else (n : option Z) (d : Z) : Z :=
  match n with
  | Some v => if v =? 0 then d else v
  | None => d
  end.

End Num.

Module Query.

(** The condition [{ field: v }] for a string [v], as MongoDB reads it:
    the field is [v], or the field is an array and one of its items is
    [v]. *)
Definition field_is (f : jsval) (v : string) : bool :=
  match f with
  | JStr s => String.eqb s v
  | JArr items => existsb (λ x, is_str x v) items
  | _ => false
  end.

(** The filter [{ $or: [{ toCode: agentCode }, { type: 'broadcast' }] }]. *)
Definition matches (agentCode : string) (m : Message) : bool :=
  field_is (toCode m) agentCode || field_is (type m) "broadcast".

(** The order of [.sort({ timestamp: -1 })]: [a] may come before [b]. *)
Definition newer (a b : Message) : Prop := timestamp b ≤ timestamp a.

#[global] Instance newer_dec a b : Decision (newer a b).
Proof. unfold newer. apply _. Defined.

(** [Message.find(filter)]: the matching documents of the collection. *)
Definition find (agentCode : string) (st : gmap nat Message) : list Message :=
  filter (λ m, matches agentCode m = true) (map_to_list st).*2.

Definition sort (l : list Message) : list Message := merge_sort newer l.

(** How many documents [.limit(n)] lets through for [n] other than zero:
    [n] of them; and for a negative [n] the driver asks for [|n|]
    documents in a single batch, which holds 101 documents by default
    (the cap of a batch in bytes is left out). *)
Definition window (n : Z) : nat :=
  if n <? 0 then Nat.min (Z.to_nat (Z.abs n)) 101 else Z.to_nat n.

(** [.limit(n)] as MongoDB reads it: zero is no limit. *)
Definition limit (n : Z) (l : list Message) : list Message :=
  if n =? 0 then l else take (window n) l.

End Query.

(** The handler; a rejected query is caught and answered with 500. *)
Definition get_agent_messages (w : World) (e : Env) (agentCode : string)
    (limit_q : option string) : Result :=
  let limit := Num.or_else (Num.parseInt_query limit_q) 50 in
  if db_ok e then
    {| world := w;
       response := json 200 (BMessages
         (Query.limit limit (Query.sort (Query.find agentCode (store w)))));
       pushes := [] |}
  else
    {| world := w;
       response := json 500 (BError "Failed to get messages");
       pushes := [] |}.

(** ** PUT /:messageId/read *)

(** The update document [{ isRead: true, readAt: new Date() }]. *)
Definition mark (t : Z) (m : Message) : Message :=
  {| _id := _id m; fromCode := fromCode m; toCode := toCode m;
     content := content m; type := type m; priority := priority m;
     timestamp := timestamp m; isRead := true; readAt := Some t |}.

(** [findByIdAndUpdate] updates the document with that id, and resolves
    (to null) when there is none.  [messageId] is the id the route
    parameter casts to. *)
Definition put_read (w : World) (e : Env) (messageId : nat) : Result :=
  if db_ok e then
    {| world := set_store w (alter (mark (now e)) messageId (store w));
       response := json 200 BSuccess;
       pushes := [] |}
  else
    {| world := w;
       response := json 500 (BError "Failed to mark as read");
       pushes := [] |}.

(** ** Connections *)

Definition set_sockets (w : World) (socks : list Socket) : World :=
  {| store := store w; next_id := next_id w; io := Some socks;
     next_sid := next_sid w |}.

(** Modelled from the spec: the Session Lifecycle Manager
    ([socket/socketHandler.js], not among the sources) registers a
    connection with a role, and deregisters it when it closes.  The rooms
    a socket joins are left open: any set of rooms at registration, and
    any later join. *)
Definition connect (w : World) (r : Role) (rs : list string) : World :=
  match io w with
  | Some socks =>
      {| store := store w; next_id := next_id w;
         io := Some (socks ++ [{| sid := next_sid w; role := r; rooms := rs |}]);
         next_sid := S (next_sid w) |}
  | None => w
  end.

Definition disconnect (w : World) (s : nat) : World :=
  match io w with
  | Some socks => set_sockets w (filter (λ c, sid c ≠ s) socks)
  | None => w
  end.

Definition join (w : World) (s : nat) (room : string) : World :=
  match io w with
  | Some socks =>
      set_sockets w
        ((λ c, if decide (sid c = s)
               then {| sid := sid c; role := role c; rooms := room :: rooms c |}
               else c) <$> socks)
  | None => w
  end.

(** ** The server as a transition system *)

Inductive Event : Type :=
| PostSend (b : SendBody)
| GetAgentMessages (agentCode : string) (limit_q : option string)
| PutRead (messageId : nat)
| Connect (r : Role) (rs : list string)
| Disconnect (s : nat)
| Join (s : nat) (room : string).

Definition quiet (w : World) : Result :=
  {| world := w; response := None; pushes := [] |}.

Definition step (w : World) (e : Env) (ev : Event) : Result :=
  match ev with
  | PostSend b => post_send w e b
  | GetAgentMessages a q => get_agent_messages w e a q
  | PutRead i => put_read w e i
  | Connect r rs => quiet (connect w r rs)
  | Disconnect s => quiet (disconnect w s)
  | Join s room => quiet (join w s room)
  end.

(** A run: the final world and every delivery made on the way, in order. *)
Fixpoint run (w : World) (t : list (Env * Event)) : World * list Delivery :=
  match t with
  | [] => (w, [])
  | (e, ev) :: t' =>
      let r := step w e ev in
      let '(w', ds) := run (world r) t' in
      (w', pushes r ++ ds)
  end.

(** The server as [server.js] starts it: [io] is set, nobody is connected. *)
Definition init : World :=
  {| store := ∅; next_id := 0; io := Some []; next_sid := 0 |}.

Inductive reachable : World → Prop :=
| reachable_init : reachable init
| reachable_step w e ev : reachable w → reachable (world (step w e ev)).

(** ** server.js: the allowed origins *)

Module Str.

(** [s.split(c)] for a one-character separator: the fields between the
    separators, empty ones included; the empty string has one empty
    field. *)
Fixpoint split (sep : ascii) (s : string) : list string :=
  match s with
  | EmptyString => [EmptyString]
  | String c r =>
      if Ascii.eqb c sep then EmptyString :: split sep r
      else match split sep r with
           | x :: xs => String c x :: xs
           | [] => [String c EmptyString]
           end
  end.

(** [s.trim()]: the white space of [Num.skip_ws] off both ends. *)
Definition trim_start (s : string) : string := Num.skip_ws s.

(** Whether [s] is white space throughout. *)
Definition all_ws (s : string) : bool := String.eqb (Num.skip_ws s) "".

Fixpoint trim_end (s : string) : string :=
  match s with
  | EmptyString => EmptyString
  | String c r => if all_ws s then EmptyString else String c (trim_end r)
  end.

Definition trim (s : string) : string := trim_end (trim_start s).

(** How often [c] occurs in [s]. *)
Fixpoint occurs (c : ascii) (s : string) : nat :=
  match s with
  | EmptyString => 0%nat
  | String c' r => ((if Ascii.eqb c' c then 1 else 0) + occurs c r)%nat
  end.

(** [l.join(c)] *)
Fixpoint join (sep : ascii) (l : list string) : string :=
  match l with
  | [] => EmptyString
  | [x] => x
  | x :: xs => x +:+ String sep (join sep xs)
  end.

End Str.

(** [process.env.CORS_ORIGIN ? process.env.CORS_ORIGIN.split(',').map(o =>
    o.trim()) : [...]]; an environment variable is a string or absent,
    and the empty string is falsy. *)
Definition default_origins : list string :=
  ["http://localhost:5173"; "http://localhost:3002"]%string.

Definition corsOrigins (CORS_ORIGIN : option string) : list string :=
  match CORS_ORIGIN with
  | Some s =>
      if String.eqb s "" then default_origins
      else Str.trim <$> Str.split "," s
  | None => default_origins
  end.

(** ** The route table of messages.js *)

Module Router.

Inductive Method : Type := GET | HEAD | POST | PUT | PATCH | DELETE.

#[global] Instance Method_eq_dec : EqDecision Method.
Proof. solve_decision. Defined.

(** A path pattern, segment by segment: a literal or a [:name]. *)
Inductive Seg : Type := Lit (s : string) | Param.

Inductive Handler : Type := SendMessage | AgentMessages | MarkRead.

(** [router.post('/send')], [router.get('/agent/:agentCode')] and
    [router.put('/:messageId/read')], in that order. *)
Definition routes : list (Method * list Seg * Handler) :=
  [ (POST, [Lit "send"], SendMessage);
    (GET, [Lit "agent"; Param], AgentMessages);
    (PUT, [Param; Lit "read"], MarkRead) ].

(** Literals are compared without regard to ASCII case. *)
Definition lower (c : ascii) : ascii :=
  let n := N_of_ascii c in
  if ((65 <=? n) && (n <=? 90))%N then ascii_of_N (n + 32) else c.

Fixpoint eqb_nocase (a b : string) : bool :=
  match a, b with
  | EmptyString, EmptyString => true
  | String x a', String y b' => Ascii.eqb (lower x) (lower y) && eqb_nocase a' b'
  | _, _ => false
  end.

(** The segments of a request path: it starts with a slash, and one
    trailing slash is ignored. *)
Definition segments (path : string) : option (list string) :=
  match Str.split "/" path with
  | EmptyString :: segs =>
      match reverse segs with
      | EmptyString :: r => Some (reverse r)
      | _ => Some segs
      end
  | _ => None
  end.

(** The values of the parameters when the pattern matches; a parameter
    takes one non-empty segment. *)
Fixpoint match_segs (p : list Seg) (segs : list string) : option (list string) :=
  match p, segs with
  | [], [] => Some []
  | Lit s :: p', x :: xs => if eqb_nocase s x then match_segs p' xs else None
  | Param :: p', x :: xs =>
      if String.eqb x "" then None else (x ::.) <$> match_segs p' xs
  | _, _ => None
  end.

(** A route answers its own method, and a GET route answers HEAD too. *)
Definition handles (route_method m : Method) : bool :=
  bool_decide (m = route_method)
  || (bool_decide (m = HEAD) && bool_decide (route_method = GET)).

Fixpoint dispatch (table : list (Method * list Seg * Handler)) (m : Method)
    (segs : list string) : option (Handler * list string) :=
  match table with
  | [] => None
  | (rm, p, h) :: table' =>
      match (if handles rm m then match_segs p segs else None) with
      | Some params => Some (h, params)
      | None => dispatch table' m segs
      end
  end.

(** The handler whose route matches a request to the router, with the raw
    values of its path parameters; [None] when the router passes the
    request on.  [path] is the path below the mount point, without the
    query string; the match is made on it as received, and the percent
    decoding of the parameters, which comes after the match, is left
    out. *)
Definition route (m : Method) (path : string) : option (Handler * list string) :=
  match segments path with
  | Some segs => dispatch routes m segs
  | None => None
  end.

End Router.

(** * Vocabulary of the properties *)

(** A field that is missing or the empty string. *)
Definition missing_or_empty (v : jsval) : Prop := v = JUndefined ∨ v = JStr "".

(** The connected sockets (none when no server is registered). *)
Definition sockets (w : World) : list Socket := default [] (io w).

(** Every stored id was handed out by the supply... *)
Definition ids_fresh (w : World) : Prop :=
  ∀ i m, store w !! i = Some m → (i < next_id w)%nat.

(** ... and so was every socket id. *)
Definition sids_fresh (w : World) : Prop :=
  ∀ s, s ∈ sockets w → (sid s < next_sid w)%nat.

(** What [mark] and the other operations leave alone. *)
Definition same_core (m m' : Message) : Prop :=
  _id m' = _id m ∧ fromCode m' = fromCode m ∧ toCode m' = toCode m
  ∧ content m' = content m ∧ type m' = type m ∧ priority m' = priority m
  ∧ timestamp m' = timestamp m.

(** Every stored broadcast record has a null [toCode]. *)
Definition broadcast_unaddressed (st : gmap nat Message) : Prop :=
  ∀ i m, st !! i = Some m → type m = JStr "broadcast" → toCode m = JNull.

(** ** Sample requests and worlds *)

Module Sample.

Definition env_ok : Env := {| now := 1000; db_ok := true |}.
Definition env_down : Env := {| now := 1000; db_ok := false |}.

(** [{ fromCode: 'A100', toCode: 'A200', content: 'break soon' }] *)
Definition direct_default : SendBody :=
  {| b_fromCode := JStr "A100"; b_toCode := JStr "A200";
     b_message := JUndefined; b_content := JStr "break soon";
     b_type := JUndefined; b_priority := JUndefined |}.

(** the same with [type: 'direct'] spelled out *)
Definition direct : SendBody :=
  {| b_fromCode := JStr "A100"; b_toCode := JStr "A200";
     b_message := JUndefined; b_content := JStr "break soon";
     b_type := JStr "direct"; b_priority := JUndefined |}.

(** [{ fromCode: 'A100', toCode: 'A200', message: 'shift ending',
       type: 'broadcast' }] *)
Definition broadcast : SendBody :=
  {| b_fromCode := JStr "A100"; b_toCode := JStr "A200";
     b_message := JStr "shift ending"; b_content := JUndefined;
     b_type := JStr "broadcast"; b_priority := JUndefined |}.

(** [{ toCode: 'A200', message: 'hello' }] *)
Definition no_sender : SendBody :=
  {| b_fromCode := JUndefined; b_toCode := JStr "A200";
     b_message := JStr "hello"; b_content := JUndefined;
     b_type := JUndefined; b_priority := JUndefined |}.

(** Agent A200 and supervisor S1 are connected, each in its own room. *)
Definition floor : World :=
  connect (connect init agent ["A200"%string]) supervisor ["S1"%string].

(** [floor] after A100 sent the direct message to A200. *)
Definition inbox : World := world (post_send floor env_ok direct).

End Sample.

(** ** Further vocabulary *)

(** A stored field holds the string [v]: it is [v], or a list with [v]
    among its items. *)
Definition field_holds (f : jsval) (v : string) : Prop :=
  f = JStr v ∨ ∃ items, f = JArr items ∧ JStr v ∈ items.

(** The messages an inbox query answers with when the store resolves. *)
Definition inbox_of (w : World) (agentCode : string) (limit_q : option string)
    : list Message :=
  Query.limit (Num.or_else (Num.parseInt_query limit_q) 50)
    (Query.sort (Query.find agentCode (store w))).

(** What the guard of POST /send leaves on every record it lets through. *)
Definition sendable (st : gmap nat Message) : Prop :=
  ∀ i m, st !! i = Some m →
    truthy (fromCode m) = true ∧ truthy (content m) = true
    ∧ type m ≠ JUndefined ∧ priority m ≠ JUndefined.

(** A record is read exactly when it carries a [readAt]. *)
Definition read_stamped (st : gmap nat Message) : Prop :=
  ∀ i m, st !! i = Some m → (isRead m = true ↔ is_Some (readAt m)).

(** No two connected sockets share an id. *)
Definition sids_distinct (w : World) : Prop := NoDup (sid <$> sockets w).

(** A text at which [parseInt] stops reading digits. *)
Definition stops (s : string) : Prop :=
  match s with
  | EmptyString => True
  | String c _ => Num.digit_val 10 c = None
  end.

(** Who got which message. *)
Definition receipt (d : Delivery) : nat * nat := (target d, _id (payload d)).

(** ** Further sample worlds *)

Module Scene.

Definition later : Env := {| now := 2000; db_ok := true |}.

(** [Sample.inbox] after a broadcast sent at a later time. *)
Definition busy : World := world (post_send Sample.inbox later Sample.broadcast).

Definition first_message : Message :=
  Send.newMessage Sample.floor Sample.env_ok Sample.direct.

Definition second_message : Message :=
  Send.newMessage Sample.inbox later Sample.broadcast.

(** [{ fromCode: 'A100', toCode: ['A200', 'S1'], content: 'break soon',
       type: 'direct' }] *)
Definition to_a_list : SendBody :=
  {| b_fromCode := JStr "A100";
     b_toCode := JArr [JStr "A200"; JStr "S1"];
     b_message := JUndefined; b_content := JStr "break soon";
     b_type := JStr "direct"; b_priority := JUndefined |}.


End Scene.

(** * Properties *)

(** ** JavaScript values *)

Lemma is_str_true v lit : is_str v lit = true ↔ v = JStr lit.
Proof.
  destruct v; simpl; try (split; intros H; discriminate H).
  rewrite String.eqb_eq. split; congruence.
Qed.

(** ** The three outcomes of POST /send *)

Section SendOutcomes.
Context (w : World) (e : Env) (b : SendBody).

Lemma post_send_rejected :
  Send.accepted b = false →
  post_send w e b =
    {| world := w;
       response := json 400 (BError "From code and message are required");
       pushes := [] |}.
Proof. intros H. unfold post_send. by rewrite H. Qed.

Lemma post_send_saved :
  Send.accepted b = true → db_ok e = true →
  post_send w e b =
    {| world := set_store (take_id w)
                  (<[next_id w := Send.newMessage w e b]> (store w));
       response := json 200 (BSent (next_id w));
       pushes := Send.route w b (Send.newMessage w e b) |}.
Proof. intros Ha Hd. unfold post_send. by rewrite Ha, Hd. Qed.

Lemma post_send_failed :
  Send.accepted b = true → db_ok e = false →
  post_send w e b =
    {| world := take_id w;
       response := json 500 (BError "Failed to send message");
       pushes := [] |}.
Proof. intros Ha Hd. unfold post_send. by rewrite Ha, Hd. Qed.

Lemma post_send_cases :
  post_send w e b = {| world := w;
       response := json 400 (BError "From code and message are required");
       pushes := [] |}
  ∨ post_send w e b = {| world := take_id w;
       response := json 500 (BError "Failed to send message");
       pushes := [] |}
  ∨ post_send w e b =
    {| world := set_store (take_id w)
                  (<[next_id w := Send.newMessage w e b]> (store w));
       response := json 200 (BSent (next_id w));
       pushes := Send.route w b (Send.newMessage w e b) |}.
Proof.
  destruct (Send.accepted b) eqn:Ha; [| left; by apply post_send_rejected].
  destruct (db_ok e) eqn:Hd; right.
  - right. by apply post_send_saved.
  - left. by apply post_send_failed.
Qed.

End SendOutcomes.

Lemma missing_or_empty_falsy v : missing_or_empty v → truthy v = false.
Proof. by intros [-> | ->]. Qed.

Lemma accepted_needs_both b :
  missing_or_empty (b_fromCode b)
  ∨ (missing_or_empty (b_message b) ∧ missing_or_empty (b_content b)) →
  Send.accepted b = false.
Proof.
  unfold Send.accepted, Send.text, JS.or.
  intros [Hf | [Hm Hc]].
  - by rewrite (missing_or_empty_falsy _ Hf).
  - rewrite (missing_or_empty_falsy _ Hm), (missing_or_empty_falsy _ Hc).
    apply andb_false_r.
Qed.

(** ** Routing *)

Lemma elem_of_emit socks ev m d :
  d ∈ Io.emit socks ev m ↔
  ∃ s, s ∈ socks ∧ d = {| target := sid s; event := ev; payload := m |}.
Proof.
  unfold Io.emit. rewrite list_elem_of_fmap.
  split; intros (s & H1 & H2); exists s; done.
Qed.

Lemma elem_of_to_emit socks k ev m d :
  d ∈ Io.to_emit socks k ev m ↔
  ∃ s, s ∈ socks ∧ Io.targeted k s = true
       ∧ d = {| target := sid s; event := ev; payload := m |}.
Proof.
  unfold Io.to_emit. rewrite elem_of_emit.
  split.
  - intros (s & [? ?]%list_elem_of_filter & ->). by exists s.
  - intros (s & ? & ? & ->). exists s. by rewrite list_elem_of_filter.
Qed.


Lemma route_payload w b m d : d ∈ Send.route w b m → payload d = m.
Proof.
  unfold Send.route. destruct (io w) as [socks |]; [| by intros ?%elem_of_nil].
  destruct (is_str _ _).
  - intros (s & _ & ->)%elem_of_emit. done.
  - intros (s & _ & _ & ->)%elem_of_to_emit. done.
Qed.

Lemma route_target w b m d :
  d ∈ Send.route w b m → ∃ socks s, io w = Some socks ∧ s ∈ socks ∧ target d = sid s.
Proof.
  unfold Send.route. destruct (io w) as [socks |]; [| by intros ?%elem_of_nil].
  destruct (is_str _ _).
  - intros (s & ? & ->)%elem_of_emit. eauto.
  - intros (s & ? & _ & ->)%elem_of_to_emit. eauto.
Qed.

Lemma route_direct w b m :
  is_str (Send.type_of b) "broadcast" = false →
  Send.route w b m =
    match io w with
    | Some socks => Io.to_emit socks (b_toCode b) "new_direct_message" m
    | None => []
    end.
Proof. intros H. unfold Send.route. by rewrite H. Qed.

Lemma route_broadcast w b m :
  Send.type_of b = JStr "broadcast" →
  Send.route w b m =
    match io w with
    | Some socks => Io.emit socks "new_broadcast_message" m
    | None => []
    end.
Proof. intros H. unfold Send.route. by rewrite H. Qed.

(** ** Invariants of the transition system *)

Lemma same_core_refl m : same_core m m.
Proof. by repeat split. Qed.

Lemma same_core_trans m1 m2 m3 :
  same_core m1 m2 → same_core m2 m3 → same_core m1 m3.
Proof. unfold same_core. intuition congruence. Qed.

Lemma same_core_mark t m : same_core m (mark t m).
Proof. by repeat split. Qed.

Create HintDb wallboard.
#[local] Hint Resolve same_core_refl same_core_mark : wallboard.

Ltac send_cases w e b :=
  destruct (post_send_cases w e b) as [-> | [-> | ->]]; simpl.

Ltac conn_cases w :=
  unfold connect, disconnect, join, set_sockets;
  destruct (io w) as [socks |] eqn:Hio; simpl.

Lemma step_next_id w e ev : (next_id w ≤ next_id (world (step w e ev)))%nat.
Proof.
  destruct ev as [b | a q | i | r rs | s | s room]; simpl.
  - send_cases w e b; lia.
  - unfold get_agent_messages. destruct (db_ok e); simpl; lia.
  - unfold put_read. destruct (db_ok e); simpl; lia.
  - conn_cases w; lia.
  - conn_cases w; lia.
  - conn_cases w; lia.
Qed.

Lemma step_next_sid w e ev : (next_sid w ≤ next_sid (world (step w e ev)))%nat.
Proof.
  destruct ev as [b | a q | i | r rs | s | s room]; simpl.
  - send_cases w e b; lia.
  - unfold get_agent_messages. destruct (db_ok e); simpl; lia.
  - unfold put_read. destruct (db_ok e); simpl; lia.
  - conn_cases w; lia.
  - conn_cases w; lia.
  - conn_cases w; lia.
Qed.

Lemma step_pushes_id w e ev d :
  d ∈ pushes (step w e ev) →
  _id (payload d) = next_id w
  ∧ (next_id w < next_id (world (step w e ev)))%nat.
Proof.
  destruct ev as [b | a q | i | r rs | s | s room]; simpl;
    try by intros ?%elem_of_nil.
  - send_cases w e b; try by intros ?%elem_of_nil.
    intros ->%route_payload. simpl. split; [done | lia].
  - unfold get_agent_messages. destruct (db_ok e); by intros ?%elem_of_nil.
  - unfold put_read. destruct (db_ok e); by intros ?%elem_of_nil.
Qed.

Lemma step_pushes_target w e ev d :
  d ∈ pushes (step w e ev) → ∃ s, s ∈ sockets w ∧ target d = sid s.
Proof.
  destruct ev as [b | a q | i | r rs | s | s room]; simpl;
    try by intros ?%elem_of_nil.
  - send_cases w e b; try by intros ?%elem_of_nil.
    intros (socks & s & Hio & Hs & Ht)%route_target.
    exists s. unfold sockets. by rewrite Hio.
  - unfold get_agent_messages. destruct (db_ok e); by intros ?%elem_of_nil.
  - unfold put_read. destruct (db_ok e); by intros ?%elem_of_nil.
Qed.

Lemma step_ids_fresh w e ev : ids_fresh w → ids_fresh (world (step w e ev)).
Proof.
  intros Hw. destruct ev as [b | a q | i | r rs | s | s room]; simpl.
  - send_cases w e b; [done | |].
    + intros i m Hi. simpl in *. apply Hw in Hi. lia.
    + intros i m Hi. simpl in *.
      destruct (decide (next_id w = i)) as [<- | Hne]; [lia |].
      rewrite lookup_insert_ne in Hi by done. apply Hw in Hi. lia.
  - unfold get_agent_messages. by destruct (db_ok e).
  - unfold put_read. destruct (db_ok e); [| done].
    intros j m Hj. simpl in Hj. rewrite lookup_alter in Hj.
    case_decide; [subst | by eapply Hw].
    destruct (store w !! j) as [m0 |] eqn:Hm0; [| done]. by eapply Hw.
  - conn_cases w; done.
  - conn_cases w; done.
  - conn_cases w; done.
Qed.

Lemma step_sids_fresh w e ev : sids_fresh w → sids_fresh (world (step w e ev)).
Proof.
  intros Hw. destruct ev as [b | a q | i | r rs | s | s room]; simpl.
  - by send_cases w e b.
  - unfold get_agent_messages. by destruct (db_ok e).
  - unfold put_read. by destruct (db_ok e).
  - unfold connect, sids_fresh, sockets in *.
    destruct (io w) as [socks |] eqn:Hio; simpl in *; [| by rewrite Hio].
    intros c [Hc | ->%list_elem_of_singleton]%elem_of_app; simpl; [| lia].
    apply Hw in Hc. lia.
  - unfold disconnect, set_sockets, sids_fresh, sockets in *.
    destruct (io w) as [socks |] eqn:Hio; simpl in *; [| by rewrite Hio].
    intros c [_ Hc]%list_elem_of_filter. by apply Hw.
  - unfold join, set_sockets, sids_fresh, sockets in *.
    destruct (io w) as [socks |] eqn:Hio; simpl in *; [| by rewrite Hio].
    intros c (c0 & -> & Hc0)%list_elem_of_fmap. apply Hw in Hc0.
    by case_decide.
Qed.

Lemma init_ids_fresh : ids_fresh init.
Proof. intros i m Hi. simpl in Hi. by rewrite lookup_empty in Hi. Qed.

Lemma init_sids_fresh : sids_fresh init.
Proof. by intros s ?%elem_of_nil. Qed.

Lemma reachable_ids_fresh w : reachable w → ids_fresh w.
Proof. induction 1; [apply init_ids_fresh | by apply step_ids_fresh]. Qed.

Lemma reachable_sids_fresh w : reachable w → sids_fresh w.
Proof. induction 1; [apply init_sids_fresh | by apply step_sids_fresh]. Qed.

(** No step removes a stored message or touches its core fields. *)
Lemma step_keeps w e ev i m :
  ids_fresh w → store w !! i = Some m →
  ∃ m', store (world (step w e ev)) !! i = Some m' ∧ same_core m m'.
Proof.
  intros Hw Hi. destruct ev as [b | a q | j | r rs | s | s room]; simpl.
  - send_cases w e b; eauto with wallboard.
    exists m. split; [| auto with wallboard].
    rewrite lookup_insert_ne; [done |]. apply Hw in Hi. lia.
  - unfold get_agent_messages. destruct (db_ok e); eauto with wallboard.
  - unfold put_read. destruct (db_ok e); simpl; eauto with wallboard.
    rewrite lookup_alter. case_decide; subst; rewrite Hi; simpl;
      eauto with wallboard.
  - conn_cases w; eauto with wallboard.
  - conn_cases w; eauto with wallboard.
  - conn_cases w; eauto with wallboard.
Qed.

(** *** Runs *)

Lemma run_cons w e ev t :
  run w ((e, ev) :: t) =
    ((run (world (step w e ev)) t).1,
     pushes (step w e ev) ++ (run (world (step w e ev)) t).2).
Proof. simpl. by destruct (run _ t). Qed.

Lemma run_app w t1 t2 :
  run w (t1 ++ t2) =
    ((run (run w t1).1 t2).1, (run w t1).2 ++ (run (run w t1).1 t2).2).
Proof.
  revert w. induction t1 as [| [e ev] t1 IH]; intros w.
  - simpl. by destruct (run w t2).
  - rewrite <- app_comm_cons, !run_cons, IH. simpl. by rewrite app_assoc.
Qed.

Lemma run_next_id w t : (next_id w ≤ next_id (run w t).1)%nat.
Proof.
  revert w. induction t as [| [e ev] t IH]; intros w; [done |].
  rewrite run_cons. simpl. pose proof (step_next_id w e ev).
  specialize (IH (world (step w e ev))). lia.
Qed.

Lemma run_next_sid w t : (next_sid w ≤ next_sid (run w t).1)%nat.
Proof.
  revert w. induction t as [| [e ev] t IH]; intros w; [done |].
  rewrite run_cons. simpl. pose proof (step_next_sid w e ev).
  specialize (IH (world (step w e ev))). lia.
Qed.

Lemma run_ids_fresh w t : ids_fresh w → ids_fresh (run w t).1.
Proof.
  revert w. induction t as [| [e ev] t IH]; intros w Hw; [done |].
  rewrite run_cons. simpl. by apply IH, step_ids_fresh.
Qed.

Lemma run_sids_fresh w t : sids_fresh w → sids_fresh (run w t).1.
Proof.
  revert w. induction t as [| [e ev] t IH]; intros w Hw; [done |].
  rewrite run_cons. simpl. by apply IH, step_sids_fresh.
Qed.

Lemma run_reachable w t : reachable w → reachable (run w t).1.
Proof.
  revert w. induction t as [| [e ev] t IH]; intros w Hw; [done |].
  rewrite run_cons. simpl. by apply IH, reachable_step.
Qed.

(** A message pushed during a run carries an id taken during that run. *)
Lemma run_pushes_id w t d :
  d ∈ (run w t).2 →
  (next_id w ≤ _id (payload d) < next_id (run w t).1)%nat.
Proof.
  revert w. induction t as [| [e ev] t IH]; intros w.
  - by intros ?%elem_of_nil.
  - rewrite run_cons. simpl. intros [Hd | Hd]%elem_of_app.
    + apply step_pushes_id in Hd as [-> Hlt].
      pose proof (run_next_id (world (step w e ev)) t). lia.
    + apply IH in Hd. pose proof (step_next_id w e ev). lia.
Qed.

(** A push during a run goes to a socket id taken before the run ended. *)
Lemma run_pushes_target w t d :
  sids_fresh w → d ∈ (run w t).2 → (target d < next_sid (run w t).1)%nat.
Proof.
  revert w. induction t as [| [e ev] t IH]; intros w Hw.
  - by intros ?%elem_of_nil.
  - rewrite run_cons. simpl. intros [Hd | Hd]%elem_of_app.
    + apply step_pushes_target in Hd as (s & Hs & ->). apply Hw in Hs.
      pose proof (step_next_sid w e ev).
      pose proof (run_next_sid (world (step w e ev)) t). lia.
    + apply IH; [by apply step_sids_fresh | done].
Qed.

Lemma run_keeps w t i m :
  ids_fresh w → store w !! i = Some m →
  ∃ m', store (run w t).1 !! i = Some m' ∧ same_core m m'.
Proof.
  revert w m. induction t as [| [e ev] t IH]; intros w m Hw Hi.
  - exists m. split; [done | apply same_core_refl].
  - rewrite run_cons. simpl.
    destruct (step_keeps w e ev i m Hw Hi) as (m1 & H1 & Hc1).
    destruct (IH _ m1 (step_ids_fresh w e ev Hw) H1) as (m2 & H2 & Hc2).
    exists m2. split; [done | by eapply same_core_trans].
Qed.

(** ** Validation and persistence failures *)

(** C9: a send request whose [fromCode] is missing or empty, or whose
    [message] and [content] are both missing or empty, is answered with
    status 400; nothing is persisted, no push is emitted, and the world is
    left exactly as it was. *)
Theorem send_invalid_is_400 w e b :
  missing_or_empty (b_fromCode b)
  ∨ (missing_or_empty (b_message b) ∧ missing_or_empty (b_content b)) →
  response (post_send w e b)
    = json 400 (BError "From code and message are required")
  ∧ world (post_send w e b) = w
  ∧ pushes (post_send w e b) = [].
Proof.
  intros H%accepted_needs_both. by rewrite post_send_rejected.
Qed.

Lemma send_invalid_is_400_witness :
  (missing_or_empty (b_fromCode Sample.no_sender)
   ∨ (missing_or_empty (b_message Sample.no_sender)
      ∧ missing_or_empty (b_content Sample.no_sender)))
  ∧ (response (post_send Sample.floor Sample.env_ok Sample.no_sender)
       = json 400 (BError "From code and message are required")
     ∧ world (post_send Sample.floor Sample.env_ok Sample.no_sender)
       = Sample.floor
     ∧ pushes (post_send Sample.floor Sample.env_ok Sample.no_sender) = []).
Proof.
  split.
  - left. left. reflexivity.
  - apply (send_invalid_is_400 Sample.floor Sample.env_ok Sample.no_sender).
    left. left. reflexivity.
Defined.

(** C3: when the insert of an accepted send request fails, the sender is
    answered with status 500 and the failure message, no push of either
    kind is made, and the collection is unchanged. *)
Theorem send_insert_failure w e b :
  Send.accepted b = true → db_ok e = false →
  response (post_send w e b) = json 500 (BError "Failed to send message")
  ∧ pushes (post_send w e b) = []
  ∧ store (world (post_send w e b)) = store w.
Proof.
  intros Ha Hd. by rewrite post_send_failed.
Qed.

Lemma send_insert_failure_witness :
  Send.accepted Sample.broadcast = true ∧ db_ok Sample.env_down = false
  ∧ (response (post_send Sample.floor Sample.env_down Sample.broadcast)
       = json 500 (BError "Failed to send message")
     ∧ pushes (post_send Sample.floor Sample.env_down Sample.broadcast) = []
     ∧ store (world (post_send Sample.floor Sample.env_down Sample.broadcast))
       = store Sample.floor).
Proof.
  split; [reflexivity |]. split; [reflexivity |].
  apply (send_insert_failure Sample.floor Sample.env_down Sample.broadcast);
    reflexivity.
Defined.

(** ** Direct messages *)

Lemma targeted_single k s :
  (∀ items, k ≠ JArr items) → Io.targeted k s = Io.in_room k s.
Proof.
  intros Hk. unfold Io.targeted, Io.room_keys.
  destruct k as [| | b | n | r | items |]; simpl;
    try done; try apply orb_false_r.
  by destruct (Hk items).
Qed.

Lemma direct_pushes w e b :
  is_str (Send.type_of b) "broadcast" = false →
  ∀ d, d ∈ pushes (post_send w e b) ↔
    Send.accepted b = true ∧ db_ok e = true
    ∧ ∃ s, s ∈ sockets w ∧ Io.targeted (b_toCode b) s = true
      ∧ d = {| target := sid s; event := "new_direct_message";
               payload := Send.newMessage w e b |}.
Proof.
  intros Ht d. unfold post_send, sockets.
  destruct (Send.accepted b); simpl.
  2:{ split; [by intros ?%elem_of_nil | by intros [? _]]. }
  destruct (db_ok e); simpl.
  2:{ split; [by intros ?%elem_of_nil | by intros (_ & ? & _)]. }
  rewrite route_direct by done.
  destruct (io w) as [socks |]; simpl.
  - rewrite elem_of_to_emit. split; [by intros ? | by intros (_ & _ & ?)].
  - split; [by intros ?%elem_of_nil |].
    by intros (_ & _ & s & ?%elem_of_nil & _).
Qed.




(** C10: a send request with no [type] field is a direct message: the
    record built for it has type ['direct'] and the [toCode] of the
    request, it is the only record the request can add to the collection
    (and is added when the request is accepted and saved), and every push
    it causes is a [new_direct_message], never a
    [new_broadcast_message], sent through [io.to(toCode)]: to a socket
    that key targets, which for a [toCode] that is not an array is a
    socket in the room named by [toCode]. *)
Theorem send_without_type_is_direct w e b :
  b_type b = JUndefined →
  type (Send.newMessage w e b) = JStr "direct"
  ∧ toCode (Send.newMessage w e b) = b_toCode b
  ∧ (store (world (post_send w e b)) = store w
     ∨ store (world (post_send w e b))
       = <[next_id w := Send.newMessage w e b]> (store w))
  ∧ (Send.accepted b = true → db_ok e = true →
     store (world (post_send w e b)) !! next_id w
       = Some (Send.newMessage w e b))
  ∧ (∀ d, d ∈ pushes (post_send w e b) →
       event d = "new_direct_message"%string
       ∧ event d ≠ "new_broadcast_message"%string
       ∧ payload d = Send.newMessage w e b
       ∧ ∃ s, s ∈ sockets w ∧ Io.targeted (b_toCode b) s = true
           ∧ target d = sid s
           ∧ ((∀ items, b_toCode b ≠ JArr items) →
              Io.in_room (b_toCode b) s = true)).
Proof.
  intros Ht.
  assert (Hty : Send.type_of b = JStr "direct")
    by (unfold Send.type_of; by rewrite Ht).
  assert (Hnb : is_str (Send.type_of b) "broadcast" = false)
    by (by rewrite Hty).
  split; [| split; [| split; [| split]]].
  - done.
  - simpl. by rewrite Hnb.
  - send_cases w e b; auto.
  - intros Ha Hd. rewrite post_send_saved by done. simpl.
    apply lookup_insert_eq.
  - intros d (_ & _ & s & Hs & Hr & ->)%direct_pushes; [| done]. simpl.
    repeat split; [done |]. exists s. repeat split; [done | done |].
    intros Hk. by rewrite <- targeted_single.
Qed.

Lemma send_without_type_is_direct_witness :
  b_type Sample.direct_default = JUndefined
  ∧ (let w := Sample.floor in
     let e := Sample.env_ok in
     let b := Sample.direct_default in
     type (Send.newMessage w e b) = JStr "direct"
     ∧ toCode (Send.newMessage w e b) = b_toCode b
     ∧ (store (world (post_send w e b)) = store w
        ∨ store (world (post_send w e b))
          = <[next_id w := Send.newMessage w e b]> (store w))
     ∧ (Send.accepted b = true → db_ok e = true →
        store (world (post_send w e b)) !! next_id w
          = Some (Send.newMessage w e b))
     ∧ (∀ d, d ∈ pushes (post_send w e b) →
          event d = "new_direct_message"%string
          ∧ event d ≠ "new_broadcast_message"%string
          ∧ payload d = Send.newMessage w e b
          ∧ ∃ s, s ∈ sockets w ∧ Io.targeted (b_toCode b) s = true
              ∧ target d = sid s
              ∧ ((∀ items, b_toCode b ≠ JArr items) →
                 Io.in_room (b_toCode b) s = true))).
Proof.
  split; [reflexivity |].
  apply (send_without_type_is_direct Sample.floor Sample.env_ok
           Sample.direct_default). reflexivity.
Defined.

(** ** Broadcasts *)

Lemma newMessage_unaddressed w e b :
  type (Send.newMessage w e b) = JStr "broadcast" →
  toCode (Send.newMessage w e b) = JNull.
Proof. simpl. intros ->. done. Qed.

Lemma step_broadcast_unaddressed w e ev :
  broadcast_unaddressed (store w) →
  broadcast_unaddressed (store (world (step w e ev))).
Proof.
  intros Hw. destruct ev as [b | a q | j | r rs | s | s room]; simpl.
  - send_cases w e b; try done.
    intros i m. rewrite lookup_insert. case_decide.
    + intros [= <-]. apply newMessage_unaddressed.
    + apply Hw.
  - unfold get_agent_messages. by destruct (db_ok e).
  - unfold put_read. destruct (db_ok e); [| done]. simpl.
    intros i m. rewrite lookup_alter. case_decide; [subst | apply Hw].
    destruct (store w !! i) as [m0 |] eqn:Hm0; [| done].
    intros [= <-]. simpl. intros Hty. by eapply Hw.
  - conn_cases w; done.
  - conn_cases w; done.
  - conn_cases w; done.
Qed.

Lemma reachable_broadcast_unaddressed w :
  reachable w → broadcast_unaddressed (store w).
Proof.
  induction 1; [| by apply step_broadcast_unaddressed].
  intros i m Hi. simpl in Hi. by rewrite lookup_empty in Hi.
Qed.

(** C8: an accepted and saved send request of type ['broadcast'] stores a
    record whose [toCode] is null whatever [toCode] the request carried;
    and in every world the server can reach, before and after that send,
    every stored broadcast record has a null [toCode]. *)
Theorem broadcast_record_toCode_null w e b :
  reachable w →
  b_type b = JStr "broadcast" → Send.accepted b = true → db_ok e = true →
  store (world (post_send w e b)) !! next_id w = Some (Send.newMessage w e b)
  ∧ type (Send.newMessage w e b) = JStr "broadcast"
  ∧ toCode (Send.newMessage w e b) = JNull
  ∧ broadcast_unaddressed (store w)
  ∧ broadcast_unaddressed (store (world (post_send w e b))).
Proof.
  intros Hw Ht Ha Hd.
  assert (Hty : Send.type_of b = JStr "broadcast")
    by (unfold Send.type_of; by rewrite Ht).
  split; [| split; [| split; [| split]]].
  - rewrite post_send_saved by done. simpl. apply lookup_insert_eq.
  - done.
  - by apply newMessage_unaddressed.
  - by apply reachable_broadcast_unaddressed.
  - apply (reachable_broadcast_unaddressed _ (reachable_step w e (PostSend b) Hw)).
Qed.

Lemma broadcast_record_toCode_null_witness :
  reachable init
  ∧ b_type Sample.broadcast = JStr "broadcast"
  ∧ b_toCode Sample.broadcast = JStr "A200"
  ∧ Send.accepted Sample.broadcast = true ∧ db_ok Sample.env_ok = true
  ∧ (let w := init in
     let e := Sample.env_ok in
     let b := Sample.broadcast in
     store (world (post_send w e b)) !! next_id w
       = Some (Send.newMessage w e b)
     ∧ type (Send.newMessage w e b) = JStr "broadcast"
     ∧ toCode (Send.newMessage w e b) = JNull
     ∧ broadcast_unaddressed (store w)
     ∧ broadcast_unaddressed (store (world (post_send w e b)))).
Proof.
  split; [apply reachable_init |]. split; [reflexivity |].
  split; [reflexivity |]. split; [reflexivity |]. split; [reflexivity |].
  apply (broadcast_record_toCode_null init Sample.env_ok Sample.broadcast);
    [apply reachable_init | reflexivity ..].
Defined.

(** C7: an accepted and saved broadcast adds exactly one record to the
    collection, under an id no record had, and answers with that id;
    every push it causes is a [new_broadcast_message] carrying that very
    record, so any two recipients get the same content and the same
    message id. *)
Theorem broadcast_one_record_for_all w e b :
  ids_fresh w →
  b_type b = JStr "broadcast" → Send.accepted b = true → db_ok e = true →
  store w !! next_id w = None
  ∧ store (world (post_send w e b))
    = <[next_id w := Send.newMessage w e b]> (store w)
  ∧ size (store (world (post_send w e b))) = S (size (store w))
  ∧ response (post_send w e b)
    = json 200 (BSent (_id (Send.newMessage w e b)))
  ∧ (∀ d, d ∈ pushes (post_send w e b) →
       event d = "new_broadcast_message"%string
       ∧ payload d = Send.newMessage w e b)
  ∧ (∀ d1 d2, d1 ∈ pushes (post_send w e b) → d2 ∈ pushes (post_send w e b) →
       content (payload d1) = content (payload d2)
       ∧ _id (payload d1) = _id (payload d2)).
Proof.
  intros Hw Ht Ha Hd.
  assert (Hty : Send.type_of b = JStr "broadcast")
    by (unfold Send.type_of; by rewrite Ht).
  assert (Hnone : store w !! next_id w = None).
  { destruct (store w !! next_id w) as [m |] eqn:Hm; [| done].
    apply Hw in Hm. lia. }
  rewrite post_send_saved by done. simpl.
  split; [done |]. split; [done |].
  split; [by apply map_size_insert_None |]. split; [done |].
  assert (Hall : ∀ d, d ∈ Send.route w b (Send.newMessage w e b) →
            event d = "new_broadcast_message"%string
            ∧ payload d = Send.newMessage w e b).
  { intros d. rewrite route_broadcast by done.
    destruct (io w) as [socks |]; [| by intros ?%elem_of_nil].
    by intros (s & _ & ->)%elem_of_emit. }
  split; [done |].
  intros d1 d2 [_ ->]%Hall [_ ->]%Hall. done.
Qed.

Lemma broadcast_one_record_for_all_witness :
  ids_fresh Sample.floor
  ∧ b_type Sample.broadcast = JStr "broadcast"
  ∧ Send.accepted Sample.broadcast = true ∧ db_ok Sample.env_ok = true
  ∧ (let w := Sample.floor in
     let e := Sample.env_ok in
     let b := Sample.broadcast in
     store w !! next_id w = None
     ∧ store (world (post_send w e b))
       = <[next_id w := Send.newMessage w e b]> (store w)
     ∧ size (store (world (post_send w e b))) = S (size (store w))
     ∧ response (post_send w e b)
       = json 200 (BSent (_id (Send.newMessage w e b)))
     ∧ (∀ d, d ∈ pushes (post_send w e b) →
          event d = "new_broadcast_message"%string
          ∧ payload d = Send.newMessage w e b)
     ∧ (∀ d1 d2,
          d1 ∈ pushes (post_send w e b) → d2 ∈ pushes (post_send w e b) →
          content (payload d1) = content (payload d2)
          ∧ _id (payload d1) = _id (payload d2))).
Proof.
  assert (Hf : ids_fresh Sample.floor).
  { intros i m Hi. vm_compute in Hi. discriminate. }
  split; [exact Hf |]. split; [reflexivity |].
  split; [reflexivity |]. split; [reflexivity |].
  apply (broadcast_one_record_for_all Sample.floor Sample.env_ok
           Sample.broadcast); [exact Hf | reflexivity ..].
Defined.

Lemma broadcast_pushes w e b :
  b_type b = JStr "broadcast" → Send.accepted b = true → db_ok e = true →
  pushes (post_send w e b)
  = (λ s, {| target := sid s; event := "new_broadcast_message";
             payload := Send.newMessage w e b |}) <$> sockets w.
Proof.
  intros Ht Ha Hd. rewrite post_send_saved by done. simpl.
  rewrite route_broadcast by (unfold Send.type_of; by rewrite Ht).
  unfold sockets. by destruct (io w).
Qed.

(** C1, as the claim states it, fails: in [Sample.floor] a broadcast is
    pushed to the supervisor's socket too, so not every recipient is a
    connection with role [agent]. *)
Lemma broadcast_reaches_supervisor :
  ¬ (∀ d, d ∈ pushes (post_send Sample.floor Sample.env_ok Sample.broadcast) →
       ∃ s, s ∈ sockets Sample.floor ∧ sid s = target d ∧ role s = agent).
Proof.
  intros H.
  destruct (H {| target := 1; event := "new_broadcast_message";
                 payload := Send.newMessage Sample.floor Sample.env_ok
                              Sample.broadcast |})
    as (s & Hs & Hsid & Hrole).
  - rewrite broadcast_pushes by reflexivity.
    apply list_elem_of_fmap.
    exists {| sid := 1; role := supervisor; rooms := ["S1"%string] |}.
    split; [reflexivity |]. right. left.
  - change (sockets Sample.floor)
      with [ {| sid := 0; role := agent; rooms := ["A200"%string] |};
             {| sid := 1; role := supervisor; rooms := ["S1"%string] |} ] in Hs.
    apply elem_of_cons in Hs as [-> | Hs]; [discriminate Hsid |].
    apply list_elem_of_singleton in Hs as ->. discriminate Hrole.
Qed.

(** C1, amended: an accepted and saved broadcast is pushed as one
    [new_broadcast_message] to every socket connected at that moment,
    whatever its role, and to nothing else; and a connection registered
    at any later point never receives that record, neither from the
    broadcast itself nor from anything that happens before or after it
    registers. *)
Theorem broadcast_reaches_all_connected w e b :
  sids_fresh w →
  b_type b = JStr "broadcast" → Send.accepted b = true → db_ok e = true →
  pushes (post_send w e b)
  = (λ s, {| target := sid s; event := "new_broadcast_message";
             payload := Send.newMessage w e b |}) <$> sockets w
  ∧ (∀ t1 r rs t2 d,
       d ∈ pushes (post_send w e b)
           ++ (run (world (post_send w e b)) t1).2
           ++ (run (connect (run (world (post_send w e b)) t1).1 r rs) t2).2 →
       ¬ (target d = next_sid (run (world (post_send w e b)) t1).1
          ∧ _id (payload d) = _id (Send.newMessage w e b))).
Proof.
  intros Hw Ht Ha Hd. split; [by apply broadcast_pushes |].
  intros t1 r rs t2 d Hin [Htarget Hid]. simpl in Hid.
  pose proof (step_next_sid w e (PostSend b)) as Hsid0.
  pose proof (run_next_sid (world (post_send w e b)) t1) as Hsid1.
  pose proof (run_next_id (world (post_send w e b)) t1) as Hid1.
  assert (Hid0 : next_id (world (post_send w e b)) = S (next_id w))
    by (by rewrite post_send_saved).
  simpl in Hsid0.
  apply elem_of_app in Hin as [Hin | Hin].
  - apply (step_pushes_target w e (PostSend b)) in Hin as (s & Hs & Heq).
    apply Hw in Hs. lia.
  - apply elem_of_app in Hin as [Hin | Hin].
    + apply run_pushes_id in Hin. lia.
    + apply run_pushes_id in Hin.
      assert (next_id (connect (run (world (post_send w e b)) t1).1 r rs)
              = next_id (run (world (post_send w e b)) t1).1) as Hc
        by (unfold connect; by destruct (io _)).
      lia.
Qed.

Lemma broadcast_reaches_all_connected_witness :
  sids_fresh Sample.floor
  ∧ b_type Sample.broadcast = JStr "broadcast"
  ∧ Send.accepted Sample.broadcast = true ∧ db_ok Sample.env_ok = true
  ∧ (let w := Sample.floor in
     let e := Sample.env_ok in
     let b := Sample.broadcast in
     pushes (post_send w e b)
     = (λ s, {| target := sid s; event := "new_broadcast_message";
                payload := Send.newMessage w e b |}) <$> sockets w
     ∧ (∀ t1 r rs t2 d,
          d ∈ pushes (post_send w e b)
              ++ (run (world (post_send w e b)) t1).2
              ++ (run (connect (run (world (post_send w e b)) t1).1 r rs)
                    t2).2 →
          ¬ (target d = next_sid (run (world (post_send w e b)) t1).1
             ∧ _id (payload d) = _id (Send.newMessage w e b)))).
Proof.
  assert (Hf : sids_fresh Sample.floor).
  { apply (step_sids_fresh _ Sample.env_ok (Connect supervisor ["S1"%string])).
    apply (step_sids_fresh _ Sample.env_ok (Connect agent ["A200"%string])).
    apply init_sids_fresh. }
  split; [exact Hf |]. split; [reflexivity |].
  split; [reflexivity |]. split; [reflexivity |].
  apply (broadcast_reaches_all_connected Sample.floor Sample.env_ok
           Sample.broadcast); [exact Hf | reflexivity ..].
Defined.

(** ** Marking a message read *)

Lemma put_read_lookup w e j i :
  db_ok e = true →
  store (world (put_read w e j)) !! i
  = if decide (j = i) then mark (now e) <$> store w !! i else store w !! i.
Proof.
  intros Hd. unfold put_read. rewrite Hd. simpl. rewrite lookup_alter.
  by case_decide; subst.
Qed.

Lemma put_read_down w e j : db_ok e = false → world (put_read w e j) = w.
Proof. intros Hd. unfold put_read. by rewrite Hd. Qed.

(** C5: marking a message read leaves every stored message in place with
    its id, sender, recipient, content, type, priority and timestamp
    unchanged, leaves every message other than the marked one unchanged
    altogether, and creates none; and no run of the server, whatever the
    requests, removes a stored message or changes those fields. *)
Theorem mark_read_frame_and_no_delete w e messageId :
  ids_fresh w →
  (∀ i m, store w !! i = Some m →
     ∃ m', store (world (put_read w e messageId)) !! i = Some m'
           ∧ same_core m m' ∧ (i ≠ messageId → m' = m))
  ∧ (∀ i, store w !! i = None →
       store (world (put_read w e messageId)) !! i = None)
  ∧ (∀ t i m, store w !! i = Some m →
       ∃ m', store (run w t).1 !! i = Some m' ∧ same_core m m').
Proof.
  intros Hw. split; [| split].
  - intros i m Hi. destruct (db_ok e) eqn:Hd.
    + rewrite put_read_lookup by done. case_decide.
      * exists (mark (now e) m). rewrite Hi. simpl.
        split; [done |]. split; [apply same_core_mark | congruence].
      * exists m. split; [done |]. split; [apply same_core_refl | done].
    + rewrite put_read_down by done. exists m.
      split; [done |]. split; [apply same_core_refl | done].
  - intros i Hi. destruct (db_ok e) eqn:Hd.
    + rewrite put_read_lookup by done. case_decide; by rewrite Hi.
    + by rewrite put_read_down.
  - intros t i m Hi. by apply run_keeps.
Qed.

Lemma mark_read_frame_and_no_delete_witness :
  ids_fresh Sample.inbox
  ∧ (let w := Sample.inbox in
     let e := Sample.env_ok in
     (∀ i m, store w !! i = Some m →
        ∃ m', store (world (put_read w e 0%nat)) !! i = Some m'
              ∧ same_core m m' ∧ (i ≠ 0%nat → m' = m))
     ∧ (∀ i, store w !! i = None →
          store (world (put_read w e 0%nat)) !! i = None)
     ∧ (∀ t i m, store w !! i = Some m →
          ∃ m', store (run w t).1 !! i = Some m' ∧ same_core m m')).
Proof.
  assert (Hf : ids_fresh Sample.inbox).
  { apply (step_ids_fresh Sample.floor Sample.env_ok (PostSend Sample.direct)).
    intros i m Hi. vm_compute in Hi. discriminate. }
  split; [exact Hf |].
  apply (mark_read_frame_and_no_delete Sample.inbox Sample.env_ok 0%nat Hf).
Defined.

(** C4, as the claim states it, fails: after the message of
    [Sample.inbox] is marked at time 100 and again at time 200, [readAt]
    is no longer the time of the first mark. *)
Lemma second_mark_overwrites_readAt :
  let w1 := world (put_read Sample.inbox {| now := 100; db_ok := true |} 0%nat) in
  let w2 := world (put_read w1 {| now := 200; db_ok := true |} 0%nat) in
  readAt <$> store w1 !! 0%nat = Some (Some 100)
  ∧ ¬ (readAt <$> store w2 !! 0%nat = Some (Some 100)).
Proof.
  split; [reflexivity |]. intros H. vm_compute in H. discriminate H.
Qed.

(** C4, amended: marking a stored message read twice answers success both
    times; after the second call [isRead] is still true, the other fields
    of the record are as before, and [readAt] is the time of the second
    call. *)
Theorem mark_read_twice w e1 e2 i m :
  store w !! i = Some m → db_ok e1 = true → db_ok e2 = true →
  response (put_read w e1 i) = json 200 BSuccess
  ∧ response (put_read (world (put_read w e1 i)) e2 i) = json 200 BSuccess
  ∧ store (world (put_read w e1 i)) !! i = Some (mark (now e1) m)
  ∧ ∃ m2, store (world (put_read (world (put_read w e1 i)) e2 i)) !! i
          = Some m2
        ∧ isRead m2 = true ∧ readAt m2 = Some (now e2) ∧ same_core m m2.
Proof.
  intros Hi H1 H2.
  assert (Hr : ∀ w' e, db_ok e = true →
            response (put_read w' e i) = json 200 BSuccess).
  { intros w' e He. unfold put_read. by rewrite He. }
  split; [by apply Hr |]. split; [by apply Hr |].
  assert (Hs1 : store (world (put_read w e1 i)) !! i = Some (mark (now e1) m)).
  { rewrite put_read_lookup by done. rewrite decide_True by done.
    by rewrite Hi. }
  split; [done |].
  exists (mark (now e2) (mark (now e1) m)). split.
  - rewrite put_read_lookup by done. rewrite decide_True by done.
    by rewrite Hs1.
  - split; [done |]. split; [done |]. by repeat split.
Qed.

Lemma mark_read_twice_witness :
  store Sample.inbox !! 0%nat
    = Some (Send.newMessage Sample.floor Sample.env_ok Sample.direct)
  ∧ (let w := Sample.inbox in
     let e1 := {| now := 100; db_ok := true |} in
     let e2 := {| now := 200; db_ok := true |} in
     let m := Send.newMessage Sample.floor Sample.env_ok Sample.direct in
     response (put_read w e1 0%nat) = json 200 BSuccess
     ∧ response (put_read (world (put_read w e1 0%nat)) e2 0%nat)
       = json 200 BSuccess
     ∧ store (world (put_read w e1 0%nat)) !! 0%nat = Some (mark (now e1) m)
     ∧ ∃ m2, store (world (put_read (world (put_read w e1 0%nat)) e2 0%nat))
               !! 0%nat = Some m2
           ∧ isRead m2 = true ∧ readAt m2 = Some (now e2) ∧ same_core m m2).
Proof.
  split; [reflexivity |].
  apply (mark_read_twice Sample.inbox {| now := 100; db_ok := true |}
           {| now := 200; db_ok := true |} 0%nat
           (Send.newMessage Sample.floor Sample.env_ok Sample.direct));
    reflexivity.
Defined.

(** ** The inbox query *)

#[local] Instance newer_trans : Transitive Query.newer.
Proof. unfold Query.newer. intros a b c. lia. Qed.

#[local] Instance newer_total : Total Query.newer.
Proof. unfold Query.newer. intros a b. lia. Qed.

Lemma existsb_is_str items v :
  existsb (λ x, is_str x v) items = true ↔ JStr v ∈ items.
Proof.
  induction items as [| x items IH]; simpl.
  - split; [discriminate | by intros ?%elem_of_nil].
  - rewrite orb_true_iff, IH, is_str_true, elem_of_cons.
    split; intros [H | H]; auto.
Qed.

Lemma field_is_spec f v : Query.field_is f v = true ↔ field_holds f v.
Proof.
  unfold field_holds. destruct f as [| | b | n | s | items |]; simpl;
    try (split; [discriminate | by intros [? | (? & ? & _)]]).
  - rewrite String.eqb_eq. split.
    + intros ->. by left.
    + by intros [[= ->] | (? & ? & _)].
  - rewrite existsb_is_str. split.
    + intros H. right. by exists items.
    + by intros [? | (? & [= <-] & ?)].
Qed.

Lemma matches_spec a m :
  Query.matches a m = true ↔
  field_holds (toCode m) a ∨ field_holds (type m) "broadcast".
Proof.
  unfold Query.matches. by rewrite orb_true_iff, !field_is_spec.
Qed.

Lemma elem_of_find a st m :
  m ∈ Query.find a st ↔ Query.matches a m = true ∧ ∃ i, st !! i = Some m.
Proof.
  unfold Query.find. rewrite list_elem_of_filter, list_elem_of_fmap.
  split.
  - intros [Hm ([i m'] & -> & Hp)]. split; [done |].
    exists i. by apply elem_of_map_to_list.
  - intros [Hm [i Hi]]. split; [done |].
    exists (i, m). split; [done |]. by apply elem_of_map_to_list.
Qed.

Lemma elem_of_sort l m : m ∈ Query.sort l ↔ m ∈ l.
Proof. unfold Query.sort. by rewrite merge_sort_Permutation. Qed.

Lemma sort_sorted l : StronglySorted Query.newer (Query.sort l).
Proof. apply StronglySorted_merge_sort; apply _. Qed.



Lemma window_bounds n :
  n ≠ 0 →
  (1 ≤ Query.window n)%nat ∧ Z.of_nat (Query.window n) ≤ Z.abs n
  ∧ (0 < n → Query.window n = Z.to_nat n).
Proof.
  intros Hn. unfold Query.window. destruct (n <? 0) eqn:Hneg; lia.
Qed.






(** ** Worked examples *)

Example parseInt_decimal : Num.parseInt "25" = Some 25.
Proof. reflexivity. Qed.

Example parseInt_prefix : Num.parseInt "  12px" = Some 12.
Proof. reflexivity. Qed.

Example parseInt_negative : Num.parseInt "-5" = Some (-5).
Proof. reflexivity. Qed.

Example parseInt_hex : Num.parseInt "0x1f" = Some 31.
Proof. reflexivity. Qed.

Example parseInt_not_a_number : Num.parseInt "abc" = None.
Proof. reflexivity. Qed.

Example limit_defaults_to_50 :
  Num.or_else (Num.parseInt_query None) 50 = 50
  ∧ Num.or_else (Num.parseInt_query (Some ""%string)) 50 = 50
  ∧ Num.or_else (Num.parseInt_query (Some "0"%string)) 50 = 50.
Proof. repeat split; reflexivity. Qed.

(** A100 writes to A200 while only a supervisor is connected: the record
    is stored, nothing is pushed. *)
Example direct_to_offline_agent :
  let w := connect init supervisor ["S1"%string] in
  let r := post_send w Sample.env_ok Sample.direct in
  response r = json 200 (BSent 0)
  ∧ store (world r) !! 0%nat = Some (Send.newMessage w Sample.env_ok Sample.direct)
  ∧ pushes r = [].
Proof. repeat split; reflexivity. Qed.

(** With A200 connected the push goes to A200's socket alone. *)
Example direct_to_online_agent :
  target <$> pushes (post_send Sample.floor Sample.env_ok Sample.direct) = [0%nat].
Proof. reflexivity. Qed.

(** A message sent under [message] wins over [content]. *)
Example message_before_content :
  Send.text {| b_fromCode := JStr "A100"; b_toCode := JUndefined;
               b_message := JStr "first"; b_content := JStr "second";
               b_type := JUndefined; b_priority := JUndefined |}
  = JStr "first".
Proof. reflexivity. Qed.

(** * Further properties of the handlers *)

(** ** POST /send: what is accepted and how it is classified *)

Lemma accepted_truthy b :
  Send.accepted b = true ↔
  truthy (b_fromCode b) = true
  ∧ (truthy (b_message b) = true ∨ truthy (b_content b) = true).
Proof.
  unfold Send.accepted, Send.text, JS.or. rewrite andb_true_iff.
  destruct (truthy (b_message b)) eqn:Hm; rewrite ?Hm; intuition congruence.
Qed.

(** X1: POST /send answers 400 exactly when [fromCode] is falsy or
    [message] and [content] are both falsy, 500 exactly when an accepted
    request meets a failing save, and 200 otherwise; [toCode], [type] and
    [priority] play no part in the verdict. *)
Theorem send_status_exact w e b :
  (Send.accepted b = true ↔
     truthy (b_fromCode b) = true
     ∧ (truthy (b_message b) = true ∨ truthy (b_content b) = true))
  ∧ (status <$> response (post_send w e b) = Some 400%nat
     ↔ Send.accepted b = false)
  ∧ (status <$> response (post_send w e b) = Some 500%nat
     ↔ Send.accepted b = true ∧ db_ok e = false)
  ∧ (status <$> response (post_send w e b) = Some 200%nat
     ↔ Send.accepted b = true ∧ db_ok e = true).
Proof.
  split; [apply accepted_truthy |].
  unfold post_send.
  destruct (Send.accepted b), (db_ok e); simpl; repeat split;
    (discriminate || done || (by intros [? ?]) || idtac).
Qed.

Lemma not_broadcast b :
  b_type b ≠ JStr "broadcast" → is_str (Send.type_of b) "broadcast" = false.
Proof.
  intros Ht. destruct (is_str (Send.type_of b) "broadcast") eqn:H; [| done].
  apply is_str_true in H. unfold Send.type_of, JS.default_to in H.
  destruct (b_type b) eqn:E; try discriminate H. by destruct Ht.
Qed.

(** X2: any [type] other than the exact string ['broadcast'] (a different
    spelling, null, a number, a list) is handled as a direct message: the
    record keeps the request's [toCode] and, unless the field is absent,
    its [type] as given, and every push is a [new_direct_message] sent
    through [io.to(toCode)]: to a socket that key targets, which for a
    [toCode] that is not an array is a socket in the room named by
    [toCode]. *)
Theorem send_other_type_is_direct w e b :
  b_type b ≠ JStr "broadcast" →
  toCode (Send.newMessage w e b) = b_toCode b
  ∧ (b_type b ≠ JUndefined → type (Send.newMessage w e b) = b_type b)
  ∧ (∀ d, d ∈ pushes (post_send w e b) →
       event d = "new_direct_message"%string
       ∧ ∃ s, s ∈ sockets w ∧ Io.targeted (b_toCode b) s = true
           ∧ target d = sid s
           ∧ ((∀ items, b_toCode b ≠ JArr items) →
              Io.in_room (b_toCode b) s = true)).
Proof.
  intros Ht. pose proof (not_broadcast b Ht) as Hnb.
  split; [| split].
  - simpl. by rewrite Hnb.
  - intros Hu. simpl. unfold Send.type_of. by destruct (b_type b).
  - intros d (_ & _ & s & Hs & Hr & ->)%direct_pushes; [| done]. simpl.
    split; [done |]. exists s. repeat split; [done | done |].
    intros Hk. by rewrite <- targeted_single.
Qed.

Lemma send_other_type_is_direct_witness :
  JNull ≠ JStr "broadcast"
  ∧ (let w := Sample.floor in
     let e := Sample.env_ok in
     let b := {| b_fromCode := JStr "A100"; b_toCode := JStr "A200";
                 b_message := JStr "hello"; b_content := JUndefined;
                 b_type := JNull; b_priority := JUndefined |} in
     toCode (Send.newMessage w e b) = b_toCode b
     ∧ (b_type b ≠ JUndefined → type (Send.newMessage w e b) = b_type b)
     ∧ (∀ d, d ∈ pushes (post_send w e b) →
          event d = "new_direct_message"%string
          ∧ ∃ s, s ∈ sockets w ∧ Io.targeted (b_toCode b) s = true
              ∧ target d = sid s
              ∧ ((∀ items, b_toCode b ≠ JArr items) →
                 Io.in_room (b_toCode b) s = true))).
Proof.
  split; [discriminate |].
  apply (send_other_type_is_direct Sample.floor Sample.env_ok
           {| b_fromCode := JStr "A100"; b_toCode := JStr "A200";
              b_message := JStr "hello"; b_content := JUndefined;
              b_type := JNull; b_priority := JUndefined |}).
  discriminate.
Defined.

Lemma newMessage_sendable w e b :
  Send.accepted b = true →
  truthy (fromCode (Send.newMessage w e b)) = true
  ∧ truthy (content (Send.newMessage w e b)) = true
  ∧ type (Send.newMessage w e b) ≠ JUndefined
  ∧ priority (Send.newMessage w e b) ≠ JUndefined.
Proof.
  unfold Send.accepted. intros [Hf Ht]%andb_true_iff. simpl.
  split; [done |]. split; [done |].
  unfold Send.type_of, Send.priority_of.
  split; [by destruct (b_type b) | by destruct (b_priority b)].
Qed.

Lemma step_sendable w e ev :
  sendable (store w) → sendable (store (world (step w e ev))).
Proof.
  intros Hw. destruct ev as [b | a q | j | r rs | s | s room]; simpl.
  - unfold post_send. destruct (Send.accepted b) eqn:Ha; simpl; [| done].
    destruct (db_ok e); simpl; [| done].
    intros i m. rewrite lookup_insert. case_decide; [| apply Hw].
    intros [= <-]. by apply (newMessage_sendable w e b).
  - unfold get_agent_messages. by destruct (db_ok e).
  - unfold put_read. destruct (db_ok e); [| done]. simpl.
    intros i m. rewrite lookup_alter. case_decide; [subst | apply Hw].
    destruct (store w !! i) as [m0 |] eqn:Hm0; [| done].
    intros [= <-]. simpl. by eapply Hw.
  - conn_cases w; done.
  - conn_cases w; done.
  - conn_cases w; done.
Qed.

(** X3: the guard of POST /send is an invariant of the collection: in
    every world the server reaches, each stored message has a truthy
    sender and a truthy content, and a [type] and [priority] that are not
    undefined. *)
Theorem stored_messages_sendable w :
  reachable w → sendable (store w).
Proof.
  induction 1; [| by apply step_sendable].
  intros i m Hi. simpl in Hi. by rewrite lookup_empty in Hi.
Qed.

Lemma stored_messages_sendable_witness :
  reachable Sample.inbox ∧ sendable (store Sample.inbox).
Proof.
  assert (H : reachable Sample.inbox).
  { apply (reachable_step _ Sample.env_ok (PostSend Sample.direct)).
    apply (reachable_step _ Sample.env_ok (Connect supervisor ["S1"%string])).
    apply (reachable_step _ Sample.env_ok (Connect agent ["A200"%string])).
    apply reachable_init. }
  split; [exact H | apply (stored_messages_sendable Sample.inbox H)].
Defined.

(** ** POST /send: pushes and the collection *)

Lemma step_push_is_stored w e ev d :
  d ∈ pushes (step w e ev) →
  store (world (step w e ev)) !! _id (payload d) = Some (payload d).
Proof.
  destruct ev as [b | a q | i | r rs | s | s room]; simpl;
    try by intros ?%elem_of_nil.
  - send_cases w e b; try by intros ?%elem_of_nil.
    intros ->%route_payload. simpl. apply lookup_insert_eq.
  - unfold get_agent_messages. destruct (db_ok e); by intros ?%elem_of_nil.
  - unfold put_read. destruct (db_ok e); by intros ?%elem_of_nil.
Qed.

(** X4: nothing is pushed about a message that is not stored: every
    delivery made during a run carries a record that is in the
    collection when the run ends, with the same id, sender, recipient,
    content, type, priority and timestamp. *)
Theorem pushed_messages_are_stored w t d :
  ids_fresh w → d ∈ (run w t).2 →
  ∃ m, store (run w t).1 !! _id (payload d) = Some m
       ∧ same_core (payload d) m.
Proof.
  revert w. induction t as [| [e ev] t IH]; intros w Hw.
  - by intros ?%elem_of_nil.
  - rewrite run_cons. simpl. intros [Hd | Hd]%elem_of_app.
    + apply step_push_is_stored in Hd.
      apply run_keeps; [by apply step_ids_fresh | done].
    + apply IH; [by apply step_ids_fresh | done].
Qed.

Lemma pushed_messages_are_stored_witness :
  let t := [(Sample.env_ok, PostSend Sample.broadcast);
            (Sample.env_ok, PutRead 0%nat)] in
  let d := {| target := 1%nat; event := "new_broadcast_message";
              payload := Send.newMessage Sample.floor Sample.env_ok
                           Sample.broadcast |} in
  ids_fresh Sample.floor ∧ d ∈ (run Sample.floor t).2
  ∧ ∃ m, store (run Sample.floor t).1 !! _id (payload d) = Some m
         ∧ same_core (payload d) m.
Proof.
  assert (Hf : ids_fresh Sample.floor).
  { intros i m Hi. vm_compute in Hi. discriminate. }
  assert (Hd : {| target := 1%nat; event := "new_broadcast_message";
                  payload := Send.newMessage Sample.floor Sample.env_ok
                               Sample.broadcast |}
               ∈ (run Sample.floor
                    [(Sample.env_ok, PostSend Sample.broadcast);
                     (Sample.env_ok, PutRead 0%nat)]).2).
  { right. left. }
  split; [exact Hf |]. split; [exact Hd |].
  exact (pushed_messages_are_stored Sample.floor _ _ Hf Hd).
Defined.



(** ** At most one delivery of a message to a socket *)

Lemma receipt_emit socks ev m :
  receipt <$> Io.emit socks ev m = (λ i, (i, _id m)) <$> (sid <$> socks).
Proof.
  unfold Io.emit. rewrite <- !list_fmap_compose. by apply list_fmap_ext.
Qed.

Lemma emit_receipts_NoDup socks ev m :
  NoDup (sid <$> socks) → NoDup (receipt <$> Io.emit socks ev m).
Proof.
  intros H. rewrite receipt_emit. apply NoDup_fmap_2; [| done].
  by intros x y [= ->].
Qed.

Lemma route_receipts_NoDup w b m :
  sids_distinct w → NoDup (receipt <$> Send.route w b m).
Proof.
  unfold sids_distinct, sockets, Send.route.
  destruct (io w) as [socks |]; simpl; [| intros _; constructor].
  intros H. destruct (is_str _ _); [by apply emit_receipts_NoDup |].
  unfold Io.to_emit. apply emit_receipts_NoDup.
  eapply sublist_NoDup; [exact H |]. apply fmap_sublist, sublist_filter.
Qed.

Lemma step_receipts_NoDup w e ev :
  sids_distinct w → NoDup (receipt <$> pushes (step w e ev)).
Proof.
  intros Hw. destruct ev as [b | a q | i | r rs | s | s room]; simpl;
    try by constructor.
  - send_cases w e b; try by constructor. by apply route_receipts_NoDup.
  - unfold get_agent_messages. destruct (db_ok e); by constructor.
  - unfold put_read. destruct (db_ok e); by constructor.
Qed.

Lemma step_sids_distinct w e ev :
  sids_fresh w → sids_distinct w → sids_distinct (world (step w e ev)).
Proof.
  intros Hf Hw. destruct ev as [b | a q | i | r rs | s | s room]; simpl.
  - by send_cases w e b.
  - unfold get_agent_messages. by destruct (db_ok e).
  - unfold put_read. by destruct (db_ok e).
  - unfold connect, sids_distinct, sids_fresh, sockets in *.
    destruct (io w) as [socks |] eqn:Hio; simpl in *; [| by rewrite Hio].
    rewrite fmap_app. apply NoDup_app. split; [done |].
    split; [| apply NoDup_singleton].
    intros x (c & -> & Hc)%list_elem_of_fmap [= Heq]%list_elem_of_singleton.
    apply Hf in Hc. lia.
  - unfold disconnect, set_sockets, sids_distinct, sockets in *.
    destruct (io w) as [socks |] eqn:Hio; simpl in *; [| by rewrite Hio].
    eapply sublist_NoDup; [exact Hw |]. apply fmap_sublist, sublist_filter.
  - unfold join, set_sockets, sids_distinct, sockets in *.
    destruct (io w) as [socks |] eqn:Hio; simpl in *; [| by rewrite Hio].
    rewrite <- list_fmap_compose.
    erewrite list_fmap_ext; [exact Hw |].
    intros j c _. simpl. by case_decide.
Qed.

(** X5: delivery is at most once: when the connected sockets have
    distinct ids, no run of the server delivers the same message twice
    to the same socket. *)
Theorem delivery_at_most_once w t :
  sids_fresh w → sids_distinct w → NoDup (receipt <$> (run w t).2).
Proof.
  revert w. induction t as [| [e ev] t IH]; intros w Hf Hd.
  - constructor.
  - rewrite run_cons. simpl. rewrite fmap_app. apply NoDup_app.
    split; [by apply step_receipts_NoDup |]. split.
    + intros x (d1 & -> & H1)%list_elem_of_fmap (d2 & Heq & H2)%list_elem_of_fmap.
      apply step_pushes_id in H1 as [H1 Hlt].
      apply run_pushes_id in H2 as [H2 _].
      unfold receipt in Heq. injection Heq as _ Heq. lia.
    + apply IH; [by apply step_sids_fresh | by apply step_sids_distinct].
Qed.

Lemma delivery_at_most_once_witness :
  let t := [(Sample.env_ok, PostSend Sample.broadcast);
            (Sample.env_ok, PostSend Sample.direct)] in
  sids_fresh Sample.floor ∧ sids_distinct Sample.floor
  ∧ NoDup (receipt <$> (run Sample.floor t).2).
Proof.
  assert (Hf : sids_fresh Sample.floor).
  { apply (step_sids_fresh _ Sample.env_ok (Connect supervisor ["S1"%string])).
    apply (step_sids_fresh _ Sample.env_ok (Connect agent ["A200"%string])).
    apply init_sids_fresh. }
  assert (Hd : sids_distinct Sample.floor).
  { apply (step_sids_distinct _ Sample.env_ok
             (Connect supervisor ["S1"%string])).
    - apply (step_sids_fresh _ Sample.env_ok (Connect agent ["A200"%string])).
      apply init_sids_fresh.
    - apply (step_sids_distinct _ Sample.env_ok
               (Connect agent ["A200"%string]));
        [apply init_sids_fresh | constructor]. }
  split; [exact Hf |]. split; [exact Hd |].
  exact (delivery_at_most_once Sample.floor _ Hf Hd).
Defined.

(** ** GET /agent/:agentCode: reading the limit *)

Lemma digit_val_pretty d :
  (d < 10)%N → Num.digit_val 10 (pretty_N_char d) = Some (Z.of_N d).
Proof.
  intros Hd.
  assert (d = 0 ∨ d = 1 ∨ d = 2 ∨ d = 3 ∨ d = 4 ∨ d = 5 ∨ d = 6 ∨ d = 7
          ∨ d = 8 ∨ d = 9)%N as Hcases by lia.
  repeat (destruct Hcases as [-> | Hcases]; [reflexivity |]).
  by subst.
Qed.

(** Reading the digits that [pretty] wrote gives the number back, on top
    of whatever was read before. *)
Lemma digits_pretty_go x :
  ∀ s acc, (0 < x)%N →
    ∃ p, Num.digits 10 acc (pretty_N_go x s)
         = Num.digits 10 (Some (default 0 acc * p + Z.of_N x)) s.
Proof.
  induction (N.lt_wf_0 x) as [x _ IH]. intros s acc Hx.
  rewrite pretty_N_go_step by done.
  pose proof (N.div_mod x 10 ltac:(lia)) as Hdm.
  pose proof (N.mod_lt x 10 ltac:(lia)) as Hm.
  destruct (decide (x `div` 10 = 0)%N) as [Hq | Hq].
  - rewrite Hq, pretty_N_go_0. simpl. rewrite digit_val_pretty by done.
    exists 10. do 2 f_equal. lia.
  - destruct (IH (x `div` 10)%N ltac:(apply N.div_lt; lia)
                (String (pretty_N_char (x `mod` 10)) s) acc ltac:(lia))
      as [p Hp].
    rewrite Hp. simpl. rewrite digit_val_pretty by done.
    exists (10 * p). do 2 f_equal. lia.
Qed.

Lemma pretty_go_head x :
  ∀ s, (0 < x)%N →
    ∃ d r, (0 < d < 10)%N ∧ pretty_N_go x s = String (pretty_N_char d) r.
Proof.
  induction (N.lt_wf_0 x) as [x _ IH]. intros s Hx.
  rewrite pretty_N_go_step by done.
  pose proof (N.div_mod x 10 ltac:(lia)) as Hdm.
  pose proof (N.mod_lt x 10 ltac:(lia)) as Hm.
  destruct (decide (x `div` 10 = 0)%N) as [Hq | Hq].
  - rewrite Hq, pretty_N_go_0. exists (x `mod` 10)%N, s. split; [lia | done].
  - apply IH; [apply N.div_lt; lia | lia].
Qed.

Lemma pretty_go_app x :
  ∀ s1 s2, pretty_N_go x (s1 +:+ s2) = pretty_N_go x s1 +:+ s2.
Proof.
  induction (N.lt_wf_0 x) as [x _ IH]. intros s1 s2.
  destruct (decide (x = 0)%N) as [-> | Hx]; [by rewrite !pretty_N_go_0 |].
  rewrite (pretty_N_go_step x (s1 +:+ s2)), (pretty_N_go_step x s1) by lia.
  apply (IH (x `div` 10)%N ltac:(apply N.div_lt; lia) (String _ s1) s2).
Qed.

Lemma digits_stops v s : stops s → Num.digits 10 (Some v) s = Some v.
Proof. destruct s as [| c r]; simpl; [done |]. by intros ->. Qed.

Lemma parseInt_leading_digit d r :
  (0 < d < 10)%N →
  Num.parseInt (String (pretty_N_char d) r)
  = match Num.digits 10 None (String (pretty_N_char d) r) with
    | Some v => Some v
    | None => None
    end.
Proof.
  intros Hd.
  assert (d = 1 ∨ d = 2 ∨ d = 3 ∨ d = 4 ∨ d = 5 ∨ d = 6 ∨ d = 7
          ∨ d = 8 ∨ d = 9)%N as Hcases by lia.
  repeat (destruct Hcases as [-> | Hcases];
          [by destruct r as [| c2 [| c3 r3]] |]).
  subst. by destruct r as [| c2 [| c3 r3]].
Qed.

Lemma parseInt_pretty_go x s :
  (0 < x)%N → stops s → Num.parseInt (pretty_N_go x s) = Some (Z.of_N x).
Proof.
  intros Hx Hs.
  destruct (pretty_go_head x s Hx) as (d & r & Hd & Heq).
  destruct (digits_pretty_go x s None Hx) as [p Hp].
  rewrite Heq in *. rewrite parseInt_leading_digit by done.
  rewrite Hp. simpl. by rewrite digits_stops.
Qed.

Lemma parseInt_pretty_pos n : 0 < n → Num.parseInt (pretty n) = Some n.
Proof.
  destruct n as [| p | p]; try lia. intros _.
  change (pretty (Z.pos p)) with (pretty_N_go (N.pos p) "").
  by rewrite parseInt_pretty_go.
Qed.

Lemma parseInt_pretty_suffix n c r :
  0 < n → Num.digit_val 10 c = None →
  Num.parseInt (pretty n +:+ String c r) = Some n.
Proof.
  destruct n as [| p | p]; try lia. intros _ Hc.
  change (pretty (Z.pos p)) with (pretty_N_go (N.pos p) "").
  rewrite <- pretty_go_app. simpl.
  by rewrite parseInt_pretty_go.
Qed.

(** ** GET /agent/:agentCode: what the answer holds *)

Lemma or_else_nonzero n d : d ≠ 0 → Num.or_else n d ≠ 0.
Proof.
  intros Hd. unfold Num.or_else. destruct n as [v |]; [| done].
  destruct (v =? 0) eqn:Hv; [done | lia].
Qed.

Lemma inbox_of_take w a q :
  inbox_of w a q
  = take (Query.window (Num.or_else (Num.parseInt_query q) 50))
      (Query.sort (Query.find a (store w))).
Proof.
  unfold inbox_of, Query.limit.
  pose proof (or_else_nonzero (Num.parseInt_query q) 50 ltac:(lia)).
  destruct (_ =? 0) eqn:Hz; [lia | done].
Qed.

Lemma get_agent_messages_ok w e a q :
  db_ok e = true →
  get_agent_messages w e a q
  = {| world := w; response := json 200 (BMessages (inbox_of w a q));
       pushes := [] |}.
Proof. intros Hd. unfold get_agent_messages. by rewrite Hd. Qed.

Lemma sort_length l : length (Query.sort l) = length l.
Proof. unfold Query.sort. by rewrite merge_sort_Permutation. Qed.

(** X8: the inbox answer misses nothing within the limit.  Its length
    never exceeds the number of stored messages that match nor the size
    of the limit in force, which is never zero; and when that limit is
    positive the length is the smaller of the two, so that every stored
    message addressed to the identity or broadcast is in the answer when
    their number is within the limit. *)
Theorem inbox_complete_within_limit w e a q :
  db_ok e = true →
  response (get_agent_messages w e a q)
    = json 200 (BMessages (inbox_of w a q))
  ∧ Num.or_else (Num.parseInt_query q) 50 ≠ 0
  ∧ (length (inbox_of w a q) ≤ length (Query.find a (store w)))%nat
  ∧ Z.of_nat (length (inbox_of w a q))
    ≤ Z.abs (Num.or_else (Num.parseInt_query q) 50)
  ∧ (0 < Num.or_else (Num.parseInt_query q) 50 →
     length (inbox_of w a q)
     = min (Z.to_nat (Num.or_else (Num.parseInt_query q) 50))
           (length (Query.find a (store w)))
     ∧ ((length (Query.find a (store w))
         ≤ Z.to_nat (Num.or_else (Num.parseInt_query q) 50))%nat →
        ∀ i m, store w !! i = Some m →
          field_holds (toCode m) a ∨ field_holds (type m) "broadcast" →
          m ∈ inbox_of w a q)).
Proof.
  intros Hd. split; [by rewrite get_agent_messages_ok |].
  pose proof (or_else_nonzero (Num.parseInt_query q) 50 ltac:(lia)) as Hnz.
  pose proof (window_bounds _ Hnz) as (Hw1 & Hw2 & Hw3).
  split; [done |].
  rewrite inbox_of_take, length_take, sort_length.
  split; [lia |]. split; [lia |].
  intros Hpos. rewrite (Hw3 Hpos). split; [done |].
  intros Hle i m Hi Hm. rewrite take_ge by (by rewrite sort_length).
  apply elem_of_sort, elem_of_find. split; [by apply matches_spec | eauto].
Qed.

Lemma inbox_complete_within_limit_witness :
  db_ok Sample.env_ok = true
  ∧ (let w := Sample.inbox in
     let e := Sample.env_ok in
     let a := "A200"%string in
     let q := Some "10"%string in
     response (get_agent_messages w e a q)
       = json 200 (BMessages (inbox_of w a q))
     ∧ Num.or_else (Num.parseInt_query q) 50 ≠ 0
     ∧ (length (inbox_of w a q) ≤ length (Query.find a (store w)))%nat
     ∧ Z.of_nat (length (inbox_of w a q))
       ≤ Z.abs (Num.or_else (Num.parseInt_query q) 50)
     ∧ (0 < Num.or_else (Num.parseInt_query q) 50 →
        length (inbox_of w a q)
        = min (Z.to_nat (Num.or_else (Num.parseInt_query q) 50))
              (length (Query.find a (store w)))
        ∧ ((length (Query.find a (store w))
            ≤ Z.to_nat (Num.or_else (Num.parseInt_query q) 50))%nat →
           ∀ i m, store w !! i = Some m →
             field_holds (toCode m) a ∨ field_holds (type m) "broadcast" →
             m ∈ inbox_of w a q))).
Proof.
  split; [reflexivity |].
  apply (inbox_complete_within_limit Sample.inbox Sample.env_ok "A200"
           (Some "10"%string)). reflexivity.
Defined.

(** X9: when the limit cuts the inbox, the newest messages are the ones
    kept: a matching stored message that is left out is not newer than
    any message in the answer. *)
Theorem inbox_keeps_the_newest w a q x y :
  x ∈ inbox_of w a q → y ∈ Query.find a (store w) → y ∉ inbox_of w a q →
  timestamp y ≤ timestamp x.
Proof.
  rewrite inbox_of_take.
  set (n := Query.window _). set (s := Query.sort _).
  intros Hx Hy Hny.
  assert (Hs : StronglySorted Query.newer (take n s ++ drop n s))
    by (rewrite take_drop; apply sort_sorted).
  apply (StronglySorted_app_1_elem_of _ _ _ x y Hs); [done |].
  apply elem_of_sort in Hy. fold s in Hy.
  rewrite <- (take_drop n s) in Hy.
  apply elem_of_app in Hy as [Hy | Hy]; [by destruct Hny | done].
Qed.

Lemma inbox_keeps_the_newest_witness :
  Scene.second_message ∈ inbox_of Scene.busy "A200" (Some "1"%string)
  ∧ Scene.first_message ∈ Query.find "A200" (store Scene.busy)
  ∧ (Scene.first_message ∉ inbox_of Scene.busy "A200" (Some "1"%string))
  ∧ timestamp Scene.first_message ≤ timestamp Scene.second_message.
Proof.
  assert (H1 : Scene.second_message
               ∈ inbox_of Scene.busy "A200" (Some "1"%string)).
  { apply (bool_decide_unpack _). vm_compute. reflexivity. }
  assert (H2 : Scene.first_message ∈ Query.find "A200" (store Scene.busy)).
  { apply (bool_decide_unpack _). vm_compute. reflexivity. }
  assert (H3 : Scene.first_message
               ∉ inbox_of Scene.busy "A200" (Some "1"%string)).
  { apply (bool_decide_unpack _). vm_compute. reflexivity. }
  split; [exact H1 |]. split; [exact H2 |]. split; [exact H3 |].
  exact (inbox_keeps_the_newest Scene.busy "A200" (Some "1"%string)
           Scene.second_message Scene.first_message H1 H2 H3).
Defined.

(** X10: a decimal limit is honoured to the letter: for [n > 0] the query
    with [limit=n] answers with the first [n] matching messages in
    newest-first order, [n] of them or all if there are fewer. *)
Theorem inbox_honours_decimal_limit w e a n :
  0 < n → db_ok e = true →
  response (get_agent_messages w e a (Some (pretty n)))
    = json 200 (BMessages
        (take (Z.to_nat n) (Query.sort (Query.find a (store w)))))
  ∧ length (take (Z.to_nat n) (Query.sort (Query.find a (store w))))
    = min (Z.to_nat n) (length (Query.find a (store w))).
Proof.
  intros Hn Hd. split.
  - rewrite get_agent_messages_ok by done. rewrite inbox_of_take.
    unfold Num.parseInt_query. simpl. rewrite parseInt_pretty_pos by done.
    simpl. destruct (n =? 0) eqn:Hz; [lia |].
    destruct (window_bounds n ltac:(lia)) as (_ & _ & Hw). by rewrite Hw.
  - by rewrite length_take, sort_length.
Qed.

Lemma inbox_honours_decimal_limit_witness :
  0 < 3 ∧ db_ok Sample.env_ok = true
  ∧ (response (get_agent_messages Sample.inbox Sample.env_ok "A200"
                 (Some (pretty 3)))
       = json 200 (BMessages
           (take (Z.to_nat 3)
              (Query.sort (Query.find "A200" (store Sample.inbox)))))
     ∧ length (take (Z.to_nat 3)
                 (Query.sort (Query.find "A200" (store Sample.inbox))))
       = min (Z.to_nat 3)
             (length (Query.find "A200" (store Sample.inbox)))).
Proof.
  split; [lia |]. split; [reflexivity |].
  apply (inbox_honours_decimal_limit Sample.inbox Sample.env_ok "A200" 3);
    [lia | reflexivity].
Defined.

(** X11: text after the number is ignored: a limit made of the decimal
    of [n > 0] followed by anything that does not start with a digit
    gives the same answer as [limit=n]; up to 2^53, where a number is
    read exactly, it is read as [n]. *)
Theorem inbox_limit_ignores_trailing_text w a n c r :
  0 < n → Num.digit_val 10 c = None →
  inbox_of w a (Some (pretty n +:+ String c r))
  = inbox_of w a (Some (pretty n))
  ∧ (n ≤ 2 ^ 53 →
     Num.parseInt_query (Some (pretty n +:+ String c r)) = Some n).
Proof.
  intros Hn Hc.
  assert (H1 : Num.parseInt_query (Some (pretty n +:+ String c r)) = Some n)
    by (by apply parseInt_pretty_suffix).
  assert (H2 : Num.parseInt_query (Some (pretty n)) = Some n)
    by (by apply parseInt_pretty_pos).
  split; [| done]. unfold inbox_of. by rewrite H1, H2.
Qed.

Lemma inbox_limit_ignores_trailing_text_witness :
  0 < 10 ∧ Num.digit_val 10 "p" = None
  ∧ (inbox_of Sample.inbox "A200" (Some (pretty 10 +:+ String "p" "x"))
     = inbox_of Sample.inbox "A200" (Some (pretty 10))
     ∧ (10 ≤ 2 ^ 53 →
        Num.parseInt_query (Some (pretty 10 +:+ String "p" "x")) = Some 10)).
Proof.
  split; [lia |]. split; [reflexivity |].
  apply (inbox_limit_ignores_trailing_text Sample.inbox "A200" 10 "p" "x");
    [lia | reflexivity].
Defined.

(** X7: sending and reading compose: when the clock at the send is ahead
    of every stored timestamp, an accepted and saved message that is a
    broadcast, or is addressed to the identity, is the first entry of
    that identity's inbox whatever the limit. *)
Theorem sent_message_tops_inbox w e b a q :
  Send.accepted b = true → db_ok e = true →
  b_type b = JStr "broadcast" ∨ b_toCode b = JStr a →
  (∀ i m, store w !! i = Some m → timestamp m < now e) →
  ∃ rest,
    inbox_of (world (post_send w e b)) a q = Send.newMessage w e b :: rest.
Proof.
  intros Ha Hd Hto Hclock.
  rewrite post_send_saved by done. rewrite inbox_of_take. simpl.
  set (m := Send.newMessage w e b).
  set (st := <[next_id w := m]> (store w)).
  assert (Hm : Query.matches a m = true).
  { apply matches_spec. subst m. simpl.
    destruct (is_str (Send.type_of b) "broadcast") eqn:Hb.
    - right. left. by apply is_str_true.
    - destruct Hto as [Ht | Ht]; [| by left; left].
      unfold Send.type_of in Hb. by rewrite Ht in Hb. }
  assert (Hin : m ∈ Query.sort (Query.find a st)).
  { apply elem_of_sort, elem_of_find. split; [done |].
    exists (next_id w). apply lookup_insert_eq. }
  pose proof (sort_sorted (Query.find a st)) as Hs.
  pose proof (or_else_nonzero (Num.parseInt_query q) 50 ltac:(lia)) as Hnz.
  destruct (Query.sort (Query.find a st)) as [| x s] eqn:Hsort.
  { by apply elem_of_nil in Hin. }
  assert (Hx : x = m).
  { assert (Hxin : x ∈ Query.sort (Query.find a st))
      by (rewrite Hsort; left).
    apply elem_of_sort, elem_of_find in Hxin as [_ [i Hi]].
    subst st. rewrite lookup_insert in Hi. case_decide; [congruence |].
    apply Hclock in Hi.
    apply StronglySorted_cons in Hs as [Hall _].
    apply elem_of_cons in Hin as [Heq | Hin]; [done |].
    rewrite Forall_forall in Hall. apply Hall in Hin.
    unfold Query.newer in Hin. subst m. simpl in Hin. lia. }
  subst x.
  pose proof (window_bounds _ Hnz) as [Hw _].
  destruct (Query.window (Num.or_else (Num.parseInt_query q) 50))
    as [| k] eqn:Hk; [lia |].
  simpl. eauto.
Qed.

Lemma sent_message_tops_inbox_witness :
  Send.accepted Sample.broadcast = true ∧ db_ok Scene.later = true
  ∧ (b_type Sample.broadcast = JStr "broadcast"
     ∨ b_toCode Sample.broadcast = JStr "S1")
  ∧ (∀ i m, store Sample.inbox !! i = Some m → timestamp m < now Scene.later)
  ∧ ∃ rest,
      inbox_of (world (post_send Sample.inbox Scene.later Sample.broadcast))
        "S1" (Some "1"%string)
      = Send.newMessage Sample.inbox Scene.later Sample.broadcast :: rest.
Proof.
  assert (Hc : ∀ i m, store Sample.inbox !! i = Some m
                      → timestamp m < now Scene.later).
  { intros i m Hi. change (store Sample.inbox)
      with (<[0%nat := Scene.first_message]> (∅ : gmap nat Message)) in Hi.
    rewrite lookup_insert in Hi. case_decide.
    - injection Hi as <-. reflexivity.
    - by rewrite lookup_empty in Hi. }
  split; [reflexivity |]. split; [reflexivity |].
  split; [left; reflexivity |]. split; [exact Hc |].
  exact (sent_message_tops_inbox Sample.inbox Scene.later Sample.broadcast
           "S1" (Some "1"%string) eq_refl eq_refl (or_introl eq_refl) Hc).
Defined.

(** ** PUT /:messageId/read: edges and invariants *)

Lemma set_store_same w : set_store w (store w) = w.
Proof. by destruct w. Qed.

(** X13: marking an id under which nothing is stored changes nothing,
    and is still answered with success when the database call
    resolves. *)
Theorem mark_unknown_id_is_noop w e i :
  store w !! i = None →
  world (put_read w e i) = w
  ∧ (db_ok e = true → response (put_read w e i) = json 200 BSuccess).
Proof.
  intros Hi. unfold put_read. destruct (db_ok e); simpl.
  - rewrite alter_id' by done. by rewrite set_store_same.
  - split; [done | discriminate].
Qed.

Lemma mark_unknown_id_is_noop_witness :
  store Sample.inbox !! 7%nat = None
  ∧ (world (put_read Sample.inbox Sample.env_ok 7%nat) = Sample.inbox
     ∧ (db_ok Sample.env_ok = true →
        response (put_read Sample.inbox Sample.env_ok 7%nat)
        = json 200 BSuccess)).
Proof.
  split; [reflexivity |].
  apply (mark_unknown_id_is_noop Sample.inbox Sample.env_ok 7%nat).
  reflexivity.
Defined.

Lemma step_keeps_read w e ev i m :
  ids_fresh w → store w !! i = Some m → isRead m = true →
  ∃ m', store (world (step w e ev)) !! i = Some m' ∧ isRead m' = true.
Proof.
  intros Hw Hi Hr. destruct ev as [b | a q | j | r rs | s | s room]; simpl.
  - send_cases w e b; eauto.
    exists m. split; [| done].
    rewrite lookup_insert_ne; [done |]. apply Hw in Hi. lia.
  - unfold get_agent_messages. destruct (db_ok e); eauto.
  - unfold put_read. destruct (db_ok e); simpl; eauto.
    rewrite lookup_alter. case_decide; subst; rewrite Hi; simpl; eauto.
  - conn_cases w; eauto.
  - conn_cases w; eauto.
  - conn_cases w; eauto.
Qed.

(** X14: reading is one way: a stored message that is read stays stored
    and read through every run of the server. *)
Theorem read_stays_read w t i m :
  ids_fresh w → store w !! i = Some m → isRead m = true →
  ∃ m', store (run w t).1 !! i = Some m' ∧ isRead m' = true.
Proof.
  revert w m. induction t as [| [e ev] t IH]; intros w m Hw Hi Hr.
  - by exists m.
  - rewrite run_cons. simpl.
    destruct (step_keeps_read w e ev i m Hw Hi Hr) as (m1 & H1 & Hr1).
    exact (IH _ m1 (step_ids_fresh w e ev Hw) H1 Hr1).
Qed.

Lemma read_stays_read_witness :
  let w := world (put_read Sample.inbox Sample.env_ok 0%nat) in
  let t := [(Scene.later, PostSend Sample.broadcast);
            (Scene.later, PutRead 1%nat)] in
  ids_fresh w
  ∧ store w !! 0%nat = Some (mark 1000 Scene.first_message)
  ∧ isRead (mark 1000 Scene.first_message) = true
  ∧ ∃ m', store (run w t).1 !! 0%nat = Some m' ∧ isRead m' = true.
Proof.
  assert (Hf : ids_fresh (world (put_read Sample.inbox Sample.env_ok 0%nat))).
  { apply (step_ids_fresh Sample.inbox Sample.env_ok (PutRead 0%nat)).
    apply (step_ids_fresh Sample.floor Sample.env_ok (PostSend Sample.direct)).
    intros i m Hi. vm_compute in Hi. discriminate. }
  split; [exact Hf |]. split; [reflexivity |]. split; [reflexivity |].
  exact (read_stays_read _ _ 0%nat _ Hf eq_refl eq_refl).
Defined.

Lemma step_read_stamped w e ev :
  read_stamped (store w) → read_stamped (store (world (step w e ev))).
Proof.
  intros Hw. destruct ev as [b | a q | j | r rs | s | s room]; simpl.
  - send_cases w e b; try done.
    intros i m. rewrite lookup_insert. case_decide; [| apply Hw].
    intros [= <-]. simpl. split; [discriminate | by intros [? ?]].
  - unfold get_agent_messages. by destruct (db_ok e).
  - unfold put_read. destruct (db_ok e); [| done]. simpl.
    intros i m. rewrite lookup_alter. case_decide; [subst | apply Hw].
    destruct (store w !! i) as [m0 |] eqn:Hm0; [| done].
    intros [= <-]. simpl. split; [by eauto | done].
  - conn_cases w; done.
  - conn_cases w; done.
  - conn_cases w; done.
Qed.

(** X15: in every world the server reaches, a stored message is read
    exactly when it carries a [readAt]: a new message has neither, and
    marking sets both. *)
Theorem read_iff_stamped w :
  reachable w → read_stamped (store w).
Proof.
  induction 1; [| by apply step_read_stamped].
  intros i m Hi. simpl in Hi. by rewrite lookup_empty in Hi.
Qed.

Lemma read_iff_stamped_witness :
  reachable Sample.inbox ∧ read_stamped (store Sample.inbox).
Proof.
  assert (H : reachable Sample.inbox).
  { apply (reachable_step _ Sample.env_ok (PostSend Sample.direct)).
    apply (reachable_step _ Sample.env_ok (Connect supervisor ["S1"%string])).
    apply (reachable_step _ Sample.env_ok (Connect agent ["A200"%string])).
    apply reachable_init. }
  split; [exact H | apply (read_iff_stamped Sample.inbox H)].
Defined.

(** X16: marks of different messages do not interfere: two mark-read
    requests for different ids leave the same world in either order. *)
Theorem marks_commute w e1 e2 i j :
  i ≠ j →
  world (put_read (world (put_read w e1 i)) e2 j)
  = world (put_read (world (put_read w e2 j)) e1 i).
Proof.
  intros Hij. unfold put_read.
  destruct (db_ok e1), (db_ok e2); simpl; try done.
  unfold set_store. simpl. f_equal.
  apply map_eq. intros k. rewrite !lookup_alter.
  repeat case_decide; subst; try done.
Qed.

Lemma marks_commute_witness :
  0%nat ≠ 1%nat
  ∧ world (put_read (world (put_read Scene.busy Sample.env_ok 0%nat))
             Scene.later 1%nat)
    = world (put_read (world (put_read Scene.busy Scene.later 1%nat))
               Sample.env_ok 0%nat).
Proof.
  split; [discriminate |].
  apply (marks_commute Scene.busy Sample.env_ok Scene.later 0%nat 1%nat).
  discriminate.
Defined.

(** X12: a message that is marked read stays in the inboxes it was in:
    the messages matching an identity's filter are the same before and
    after, except that the marked one appears in its marked form. *)
Theorem marked_message_stays_in_inbox w e i m a :
  db_ok e = true → store w !! i = Some m →
  ∃ rest,
    Query.find a (store w)
      ≡ₚ (if Query.matches a m then [m] else []) ++ rest
    ∧ Query.find a (store (world (put_read w e i)))
      ≡ₚ (if Query.matches a m then [mark (now e) m] else []) ++ rest.
Proof.
  intros Hd Hi. unfold put_read. rewrite Hd. simpl.
  exists (Query.find a (delete i (store w))).
  assert (Hdel : delete i (store w) !! i = None) by apply lookup_delete_eq.
  assert (Hfind : ∀ x,
    Query.find a (<[i := x]> (delete i (store w)))
    ≡ₚ (if Query.matches a x then [x] else [])
       ++ Query.find a (delete i (store w))).
  { intros x. unfold Query.find.
    rewrite (map_to_list_insert _ _ _ Hdel). rewrite fmap_cons. simpl.
    rewrite filter_cons. case_decide as Hm.
    - by rewrite Hm.
    - by destruct (Query.matches a x). }
  split.
  - rewrite <- (insert_delete_id (store w) i m Hi) at 1. apply Hfind.
  - assert (alter (mark (now e)) i (store w)
            = <[i := mark (now e) m]> (delete i (store w))) as ->.
    { rewrite <- (insert_delete_id (store w) i m Hi) at 1.
      by rewrite alter_insert_eq. }
    assert (Query.matches a (mark (now e) m) = Query.matches a m) as <-
      by done.
    apply Hfind.
Qed.

Lemma marked_message_stays_in_inbox_witness :
  db_ok Sample.env_ok = true
  ∧ store Sample.inbox !! 0%nat = Some Scene.first_message
  ∧ ∃ rest,
      Query.find "A200" (store Sample.inbox)
        ≡ₚ (if Query.matches "A200" Scene.first_message
            then [Scene.first_message] else []) ++ rest
      ∧ Query.find "A200"
          (store (world (put_read Sample.inbox Sample.env_ok 0%nat)))
        ≡ₚ (if Query.matches "A200" Scene.first_message
            then [mark (now Sample.env_ok) Scene.first_message] else [])
           ++ rest.
Proof.
  split; [reflexivity |]. split; [reflexivity |].
  exact (marked_message_stays_in_inbox Sample.inbox Sample.env_ok 0%nat
           Scene.first_message "A200" eq_refl eq_refl).
Defined.

(** * server.js *)

(** ** Splitting and trimming *)

Lemma split_head sep s : ∃ x xs, Str.split sep s = x :: xs.
Proof.
  induction s as [| c r IH]; simpl; [by eauto |].
  destruct (Ascii.eqb c sep); [by eauto |].
  destruct IH as (x & xs & ->). by eauto.
Qed.

Lemma split_length sep s :
  length (Str.split sep s) = S (Str.occurs sep s).
Proof.
  induction s as [| c r IH]; simpl; [done |].
  destruct (Ascii.eqb c sep); simpl; [by rewrite IH |].
  destruct (split_head sep r) as (x & xs & Hx). rewrite Hx in *. done.
Qed.

Lemma split_fields sep s :
  Forall (λ x, Str.occurs sep x = 0%nat) (Str.split sep s).
Proof.
  induction s as [| c r IH]; simpl; [by repeat constructor |].
  destruct (Ascii.eqb c sep) eqn:Hc; [by constructor |].
  destruct (Str.split sep r) as [| x xs]; [| inversion_clear IH as [| ? ? Hx Hxs]];
    constructor; simpl; rewrite ?Hc; done.
Qed.

Lemma split_no_sep sep s :
  Str.occurs sep s = 0%nat → Str.split sep s = [s].
Proof.
  induction s as [| c r IH]; simpl; [done |].
  destruct (Ascii.eqb c sep); [done |]. simpl. intros Hr. by rewrite IH.
Qed.

Lemma split_app_sep sep x t :
  Str.occurs sep x = 0%nat →
  Str.split sep (x +:+ String sep t) = x :: Str.split sep t.
Proof.
  induction x as [| c r IH]; simpl.
  - intros _. by rewrite Ascii.eqb_refl.
  - destruct (Ascii.eqb c sep); [done |]. simpl. intros Hr. by rewrite IH.
Qed.


Lemma skip_ws_eq s :
  Num.skip_ws s
  = match Num.strip_ws s with Some r => Num.skip_ws r | None => s end.
Proof.
  destruct s as [| c1 [| c2 [| c3 r]]]; cbn [Num.skip_ws Num.strip_ws].
  - reflexivity.
  - destruct (Num.is_ws c1); reflexivity.
  - destruct (Num.is_ws c1); [reflexivity |].
    destruct (Num.is_ws2 c1 c2); reflexivity.
  - destruct (Num.is_ws c1); [reflexivity |].
    destruct (Num.is_ws2 c1 c2); [reflexivity |].
    destruct (Num.is_ws3 c1 c2 c3); reflexivity.
Qed.

Lemma strip_ws_split s r :
  Num.strip_ws s = Some r →
  ∃ p, s = p +:+ r ∧ (String.length r < String.length s)%nat.
Proof.
  assert (H1 : ∀ c1 r1, ∃ p, String c1 r1 = p +:+ r1
            ∧ (String.length r1 < String.length (String c1 r1))%nat).
  { intros c1 r1. exists (String c1 ""). simpl. split; [done | lia]. }
  assert (H2 : ∀ c1 c2 r2, ∃ p, String c1 (String c2 r2) = p +:+ r2
            ∧ (String.length r2
               < String.length (String c1 (String c2 r2)))%nat).
  { intros c1 c2 r2. exists (String c1 (String c2 "")). simpl.
    split; [done | lia]. }
  assert (H3 : ∀ c1 c2 c3 r3,
            ∃ p, String c1 (String c2 (String c3 r3)) = p +:+ r3
            ∧ (String.length r3
               < String.length (String c1 (String c2 (String c3 r3))))%nat).
  { intros c1 c2 c3 r3. exists (String c1 (String c2 (String c3 ""))).
    simpl. split; [done | lia]. }
  destruct s as [| c1 [| c2 [| c3 r3]]]; cbn [Num.strip_ws].
  - done.
  - destruct (Num.is_ws c1); [| done]. intros [= <-]. apply H1.
  - destruct (Num.is_ws c1); [intros [= <-]; apply H1 |].
    destruct (Num.is_ws2 c1 c2); [| done]. intros [= <-]. apply H2.
  - destruct (Num.is_ws c1); [intros [= <-]; apply H1 |].
    destruct (Num.is_ws2 c1 c2); [intros [= <-]; apply H2 |].
    destruct (Num.is_ws3 c1 c2 c3); [| done]. intros [= <-]. apply H3.
Qed.

Lemma append_cons c s t : String c s +:+ t = String c (s +:+ t).
Proof. reflexivity. Qed.

Lemma append_nil t : ""%string +:+ t = t.
Proof. reflexivity. Qed.

Lemma append_assoc s t u : (s +:+ t) +:+ u = s +:+ (t +:+ u).
Proof.
  induction s as [| c s IH]; [reflexivity |].
  by rewrite !append_cons, IH.
Qed.

Lemma strip_ws_app s r t :
  Num.strip_ws s = Some r → Num.strip_ws (s +:+ t) = Some (r +:+ t).
Proof.
  destruct s as [| c1 [| c2 [| c3 r3]]];
    rewrite ?append_cons, ?append_nil; cbn [Num.strip_ws].
  - done.
  - destruct (Num.is_ws c1); [intros [= <-]; reflexivity | done].
  - destruct (Num.is_ws c1); [intros [= <-]; reflexivity |].
    destruct (Num.is_ws2 c1 c2); [intros [= <-]; reflexivity | done].
  - destruct (Num.is_ws c1); [intros [= <-]; reflexivity |].
    destruct (Num.is_ws2 c1 c2); [intros [= <-]; reflexivity |].
    destruct (Num.is_ws3 c1 c2 c3); [intros [= <-]; reflexivity | done].
Qed.

Lemma occurs_app c s t :
  Str.occurs c (s +:+ t) = (Str.occurs c s + Str.occurs c t)%nat.
Proof.
  induction s as [| c' s IH]; [reflexivity |].
  rewrite append_cons. cbn [Str.occurs]. rewrite IH. lia.
Qed.

(** Facts about [skip_ws], by induction on the length of the text. *)
Lemma skip_ws_facts n :
  ∀ s, (String.length s < n)%nat →
    Num.strip_ws (Num.skip_ws s) = None
    ∧ (∃ p, s = p +:+ Num.skip_ws s)
    ∧ (∀ t, Num.skip_ws s = ""%string →
         Num.skip_ws (s +:+ t) = Num.skip_ws t).
Proof.
  induction n as [| n IH]; intros s Hn; [lia |].
  rewrite (skip_ws_eq s). destruct (Num.strip_ws s) as [r |] eqn:Hs.
  - destruct (strip_ws_split s r Hs) as (p & Hp & Hlen).
    destruct (IH r ltac:(lia)) as (H1 & [p' H2] & H3).
    split; [done |]. split.
    + exists (p +:+ p'). rewrite Hp at 1. rewrite H2 at 1.
      by rewrite append_assoc.
    + intros t Ht. rewrite (skip_ws_eq (s +:+ t)).
      rewrite (strip_ws_app s r t Hs). by apply H3.
  - split; [done |]. split; [by exists ""%string |].
    intros t ->. reflexivity.
Qed.

Lemma skip_ws_stripped s : Num.strip_ws (Num.skip_ws s) = None.
Proof.
  by destruct (skip_ws_facts (S (String.length s)) s ltac:(lia)) as (H & _).
Qed.

Lemma skip_ws_fixed s : Num.strip_ws s = None → Num.skip_ws s = s.
Proof. intros H. by rewrite skip_ws_eq, H. Qed.

Lemma skip_ws_all_app s t :
  Num.skip_ws s = ""%string → Num.skip_ws (s +:+ t) = Num.skip_ws t.
Proof.
  destruct (skip_ws_facts (S (String.length s)) s ltac:(lia)) as (_ & _ & H).
  apply H.
Qed.

Lemma occurs_skip_ws c s : (Str.occurs c (Num.skip_ws s) ≤ Str.occurs c s)%nat.
Proof.
  destruct (skip_ws_facts (S (String.length s)) s ltac:(lia))
    as (_ & [p Hp] & _).
  rewrite Hp at 2. rewrite occurs_app. lia.
Qed.

Lemma all_ws_true s : Str.all_ws s = true ↔ Num.skip_ws s = ""%string.
Proof. unfold Str.all_ws. apply String.eqb_eq. Qed.

(** What [trim_end] cuts off is white space throughout. *)
Lemma trim_end_split s :
  ∃ t, s = Str.trim_end s +:+ t ∧ Num.skip_ws t = ""%string.
Proof.
  induction s as [| c r IH]; [by exists ""%string |].
  cbn [Str.trim_end]. destruct (Str.all_ws (String c r)) eqn:Hall.
  - exists (String c r). split; [done | by apply all_ws_true].
  - destruct IH as (t & Ht & Hws). exists t. split; [| done].
    rewrite append_cons. by f_equal.
Qed.

Lemma trim_end_idem s : Str.trim_end (Str.trim_end s) = Str.trim_end s.
Proof.
  induction s as [| c r IH]; [done |].
  cbn [Str.trim_end]. destruct (Str.all_ws (String c r)) eqn:Hall; [done |].
  cbn [Str.trim_end].
  destruct (Str.all_ws (String c (Str.trim_end r))) eqn:Hall'.
  - exfalso. apply all_ws_true in Hall'.
    destruct (trim_end_split r) as (t & Ht & Hws).
    assert (Str.all_ws (String c r) = true); [| congruence].
    apply all_ws_true. rewrite Ht.
    change (String c (Str.trim_end r +:+ t))
      with (String c (Str.trim_end r) +:+ t).
    by rewrite skip_ws_all_app.
  - by rewrite IH.
Qed.

Lemma trim_end_stripped s :
  Num.strip_ws s = None → Num.strip_ws (Str.trim_end s) = None.
Proof.
  intros Hs. destruct (Num.strip_ws (Str.trim_end s)) as [r |] eqn:Hr; [| done].
  destruct (trim_end_split s) as (t & Ht & _).
  rewrite Ht in Hs. by rewrite (strip_ws_app _ _ t Hr) in Hs.
Qed.

Lemma trim_idem s : Str.trim (Str.trim s) = Str.trim s.
Proof.
  unfold Str.trim, Str.trim_start.
  rewrite (skip_ws_fixed (Str.trim_end (Num.skip_ws s)))
    by apply trim_end_stripped, skip_ws_stripped.
  apply trim_end_idem.
Qed.

Lemma occurs_trim_end c s : (Str.occurs c (Str.trim_end s) ≤ Str.occurs c s)%nat.
Proof.
  destruct (trim_end_split s) as (t & Ht & _).
  rewrite Ht at 2. rewrite occurs_app. lia.
Qed.

Lemma occurs_trim c s : (Str.occurs c (Str.trim s) ≤ Str.occurs c s)%nat.
Proof.
  unfold Str.trim, Str.trim_start.
  pose proof (occurs_trim_end c (Num.skip_ws s)).
  pose proof (occurs_skip_ws c s). lia.
Qed.

(** ** The allowed origins *)

(** X17: every allowed origin is trimmed and holds no comma, whatever
    [CORS_ORIGIN] is: trimming it again changes nothing. *)
Theorem cors_origins_are_clean env :
  Forall (λ o, Str.trim o = o ∧ Str.occurs "," o = 0%nat) (corsOrigins env).
Proof.
  assert (Hdef : Forall (λ o, Str.trim o = o ∧ Str.occurs "," o = 0%nat)
                   default_origins)
    by (repeat constructor).
  unfold corsOrigins. destruct env as [s |]; [| done].
  destruct (String.eqb s ""); [done |].
  apply Forall_fmap. eapply Forall_impl; [apply (split_fields "," s) |].
  intros x Hx. cbv beta in Hx. unfold compose.
  split; [apply trim_idem |].
  pose proof (occurs_trim "," x). lia.
Qed.

(** X18: a non-empty [CORS_ORIGIN] gives one origin per comma-separated
    field, empty fields included: one more than it has commas; and
    whatever the variable holds, the list of allowed origins is never
    empty. *)
Theorem cors_origins_count s :
  s ≠ ""%string →
  length (corsOrigins (Some s)) = S (Str.occurs "," s)
  ∧ ∀ env, corsOrigins env ≠ [].
Proof.
  intros Hs. split.
  - unfold corsOrigins.
    destruct (String.eqb s "") eqn:He; [by apply String.eqb_eq in He |].
    by rewrite length_fmap, split_length.
  - intros env. unfold corsOrigins. destruct env as [s' |]; [| done].
    destruct (String.eqb s' ""); [done |].
    destruct (split_head "," s') as (x & xs & ->). done.
Qed.

Lemma cors_origins_count_witness :
  "http://a.example,"%string ≠ ""%string
  ∧ (length (corsOrigins (Some "http://a.example,"%string))
     = S (Str.occurs "," "http://a.example,")
     ∧ ∀ env, corsOrigins env ≠ []).
Proof.
  split; [discriminate |].
  apply (cors_origins_count "http://a.example,"). discriminate.
Defined.



(** ** The routes of the messages router *)

Lemma trailing_slash_keeps_head x y ys :
  ∃ rest,
    match reverse (x :: y :: ys) with
    | EmptyString :: r => Some (reverse r)
    | _ => Some (x :: y :: ys)
    end = Some (x :: rest).
Proof.
  rewrite (reverse_cons (y :: ys) x).
  destruct (reverse (y :: ys)) as [| z zs] eqn:Hr.
  { apply (f_equal length) in Hr. rewrite length_reverse in Hr. done. }
  simpl. destruct z as [| c z'].
  - exists (reverse zs). by rewrite reverse_app.
  - by eauto.
Qed.

(** X20: the path that the start-up banner announces for the inbox,
    [GET /api/messages/inbox/:agentCode], is not served: below the mount
    point no [GET /inbox/...] reaches a handler of the router, whatever
    follows. *)
Theorem banner_inbox_route_not_served rest :
  Router.route Router.GET ("/inbox/" +:+ rest) = None
  ∧ Router.route Router.HEAD ("/inbox/" +:+ rest) = None.
Proof.
  unfold Router.route, Router.segments.
  change (Str.split "/" ("/inbox/" +:+ rest))
    with (EmptyString :: match Str.split "/" ("inbox/" +:+ rest) with
                         | x :: xs => x :: xs
                         | [] => [EmptyString]
                         end).
  assert (Str.split "/" ("inbox/" +:+ rest)
          = "inbox"%string :: Str.split "/" rest) as ->
    by (by apply (split_app_sep "/" "inbox" rest)).
  destruct (split_head "/" rest) as (y & ys & ->).
  destruct (trailing_slash_keeps_head "inbox" y ys) as [r' ->].
  done.
Qed.

(** X21: the inbox is served under [GET /agent/:agentCode] (and HEAD),
    with or without a trailing slash, for every non-empty code that
    holds no slash and no percent escape; the handler gets the code as
    written. *)
Theorem agent_route_served code :
  code ≠ ""%string → Str.occurs "/" code = 0%nat →
  Str.occurs "%" code = 0%nat →
  Router.route Router.GET ("/agent/" +:+ code)
    = Some (Router.AgentMessages, [code])
  ∧ Router.route Router.HEAD ("/agent/" +:+ code)
    = Some (Router.AgentMessages, [code])
  ∧ Router.route Router.GET ("/agent/" +:+ code +:+ "/")
    = Some (Router.AgentMessages, [code]).
Proof.
  intros Hne Hc _.
  assert (Hseg : Router.segments ("/agent/" +:+ code)
                 = Some ["agent"%string; code]).
  { unfold Router.segments.
    change (Str.split "/" ("/agent/" +:+ code))
      with (EmptyString :: match Str.split "/" ("agent/" +:+ code) with
                           | x :: xs => x :: xs
                           | [] => [EmptyString]
                           end).
    assert (Str.split "/" ("agent/" +:+ code)
            = "agent"%string :: Str.split "/" code) as ->
      by (by apply (split_app_sep "/" "agent" code)).
    rewrite split_no_sep by done.
    change (reverse ["agent"%string; code]) with [code; "agent"%string].
    by destruct code. }
  assert (Hseg' : Router.segments ("/agent/" +:+ code +:+ "/")
                  = Some ["agent"%string; code]).
  { unfold Router.segments.
    change (Str.split "/" ("/agent/" +:+ code +:+ "/"))
      with (EmptyString :: match Str.split "/" ("agent/" +:+ code +:+ "/") with
                           | x :: xs => x :: xs
                           | [] => [EmptyString]
                           end).
    assert (Str.split "/" ("agent/" +:+ code +:+ "/")
            = "agent"%string :: Str.split "/" (code +:+ "/")) as ->
      by (by apply (split_app_sep "/" "agent" (code +:+ "/"))).
    rewrite (split_app_sep "/" code "") by done. done. }
  assert (Hm : String.eqb code "" = false) by (by destruct code).
  unfold Router.route. rewrite Hseg, Hseg'. simpl. rewrite Hm. done.
Qed.

Lemma agent_route_served_witness :
  "A100"%string ≠ ""%string ∧ Str.occurs "/" "A100" = 0%nat
  ∧ Str.occurs "%" "A100" = 0%nat
  ∧ (Router.route Router.GET ("/agent/" +:+ "A100")
       = Some (Router.AgentMessages, ["A100"%string])
     ∧ Router.route Router.HEAD ("/agent/" +:+ "A100")
       = Some (Router.AgentMessages, ["A100"%string])
     ∧ Router.route Router.GET ("/agent/" +:+ "A100" +:+ "/")
       = Some (Router.AgentMessages, ["A100"%string])).
Proof.
  split; [discriminate |]. split; [reflexivity |]. split; [reflexivity |].
  apply (agent_route_served "A100"); [discriminate | reflexivity ..].
Defined.

Lemma match_segs_send lit segs ps :
  Router.match_segs [Router.Lit lit] segs = Some ps → ps = [].
Proof.
  destruct segs as [| x [| y ys]]; simpl; try done;
    destruct (Router.eqb_nocase lit x); intros H;
    try discriminate H; by injection H as <-.
Qed.

Lemma match_segs_agent lit segs ps :
  Router.match_segs [Router.Lit lit; Router.Param] segs = Some ps →
  ∃ code, ps = [code] ∧ code ≠ ""%string ∧ segs !! 1%nat = Some code.
Proof.
  destruct segs as [| x [| y [| z zs]]]; simpl; try done;
    destruct (Router.eqb_nocase lit x); try done;
    destruct (String.eqb y "") eqn:Hy; try done.
  intros [= <-]. exists y. split; [done |]. split; [| done].
  intros ->. done.
Qed.

Lemma match_segs_read lit segs ps :
  Router.match_segs [Router.Param; Router.Lit lit] segs = Some ps →
  ∃ id, ps = [id] ∧ id ≠ ""%string ∧ segs !! 0%nat = Some id.
Proof.
  destruct segs as [| x [| y [| z zs]]]; simpl; try done;
    destruct (String.eqb x "") eqn:Hx; try done;
    destruct (Router.eqb_nocase lit y); try done.
  intros [= <-]. exists x. split; [done |]. split; [| done].
  intros ->. done.
Qed.

(** X22: what a handler of the router can rely on: the send handler runs
    for POST only and takes no parameter; the inbox handler runs for GET
    and HEAD only and the mark-read handler for PUT only, each with one
    parameter that is never empty; no other method reaches a handler. *)
Theorem routed_requests m path h ps :
  Router.route m path = Some (h, ps) →
  (h = Router.SendMessage ∧ m = Router.POST ∧ ps = [])
  ∨ (h = Router.AgentMessages ∧ (m = Router.GET ∨ m = Router.HEAD)
     ∧ ∃ code, ps = [code] ∧ code ≠ ""%string)
  ∨ (h = Router.MarkRead ∧ m = Router.PUT
     ∧ ∃ id, ps = [id] ∧ id ≠ ""%string).
Proof.
  unfold Router.route. destruct (Router.segments path) as [segs |]; [| done].
  unfold Router.routes, Router.dispatch.
  destruct (Router.handles Router.POST m) eqn:H1.
  - destruct (Router.match_segs [Router.Lit "send"] segs) as [ps1 |] eqn:Hs.
    + intros [= <- <-]. left. apply match_segs_send in Hs.
      destruct m; try discriminate H1. done.
    + destruct m; discriminate H1 || done.
  - destruct (Router.handles Router.GET m) eqn:H2.
    + destruct (Router.match_segs _ segs) as [ps2 |] eqn:Hs.
      * intros [= <- <-]. right. left.
        apply match_segs_agent in Hs as (code & -> & Hne & _).
        split; [done |]. split; [| by eauto].
        destruct m; try discriminate H2; auto.
      * destruct m; discriminate H2 || done.
    + destruct (Router.handles Router.PUT m) eqn:H3; [| done].
      destruct (Router.match_segs _ segs) as [ps3 |] eqn:Hs; [| done].
      intros [= <- <-]. right. right.
      apply match_segs_read in Hs as (id & -> & Hne & _).
      split; [done |]. split; [| by eauto].
      destruct m; try discriminate H3; done.
Qed.

Lemma routed_requests_witness :
  Router.route Router.PUT "/send/read" = Some (Router.MarkRead, ["send"%string])
  ∧ ((Router.MarkRead = Router.SendMessage ∧ Router.PUT = Router.POST
      ∧ ["send"%string] = [])
     ∨ (Router.MarkRead = Router.AgentMessages
        ∧ (Router.PUT = Router.GET ∨ Router.PUT = Router.HEAD)
        ∧ ∃ code, ["send"%string] = [code] ∧ code ≠ ""%string)
     ∨ (Router.MarkRead = Router.MarkRead ∧ Router.PUT = Router.PUT
        ∧ ∃ id, ["send"%string] = [id] ∧ id ≠ ""%string)).
Proof.
  split; [reflexivity |].
  apply (routed_requests Router.PUT "/send/read" Router.MarkRead
           ["send"%string]). reflexivity.
Defined.

(** White space before a limit is skipped whatever its script: a
    no-break space, U+00A0, before [100]. *)
Example parseInt_after_no_break_space :
  Num.parseInt (String "194" (String "160" "100")) = Some 100.
Proof. reflexivity. Qed.

(** [trim] takes a line separator, U+2028, and a no-break space off the
    ends of an origin. *)
Example trim_unicode_blanks :
  Str.trim (String "226" (String "128" (String "168" "http://a.example"))
            +:+ String "194" (String "160" ""))
  = "http://a.example"%string.
Proof. reflexivity. Qed.

(** [limit=-200] asks for one batch: 101 documents at most. *)
Example negative_limit_is_one_batch :
  Query.window (-200) = 101%nat ∧ Query.window (-7) = 7%nat.
Proof. split; reflexivity. Qed.

(** A stored message addressed to a list is in the inbox of each
    identity on the list. *)
Example list_recipient_matches :
  Query.matches "S1" (Send.newMessage Sample.floor Sample.env_ok
                        Scene.to_a_list) = true
  ∧ Query.matches "A300" (Send.newMessage Sample.floor Sample.env_ok
                            Scene.to_a_list) = false.
Proof. split; reflexivity. Qed.
